(** * golyrics: the now-playing dashboard of [main.go]

    A shallow embedding of the polling / lyric-fetching program and the
    properties of its specification.

    Go strings are byte sequences: they are modelled as [string] (a sequence
    of 8-bit [ascii]).  External calls (the [playerctl] process, the two HTTP
    requests, the HTML queries) are inputs of the functions that perform
    them.  The Bubble Tea runtime is modelled by the messages it delivers to
    [Update] and the commands [Update] hands back to it. *)

From Stdlib Require Import String Ascii List ZArith Lia Bool Arith.
Import ListNotations.
Open Scope list_scope.
Open Scope string_scope.

(** ** Characters and small string helpers *)

Definition nl : ascii := "010"%char.

(** [rep n] is a run of [n] newline characters. *)
Fixpoint rep (n : nat) : string :=
  match n with
  | O => ""
  | S k => String nl (rep k)
  end.

Fixpoint revString (s : string) : string :=
  match s with
  | "" => ""
  | String c s' => revString s' ++ String c ""
  end.

Definition bytes (l : list nat) : string :=
  string_of_list_ascii (map ascii_of_nat l).

(** ** The part of Go's [strings] package the program calls *)

Module strings.

(** The scan of [strings.ReplaceAll]: the leftmost occurrence of [old] is
    replaced and the scan resumes after it, so occurrences never overlap.
    [skip] counts the bytes of a matched occurrence still to be passed
    over. *)
Fixpoint replaceFrom (old new : string) (skip : nat) (s : string) : string :=
  match s with
  | "" => ""
  | String c s' =>
      match skip with
      | S k => replaceFrom old new k s'
      | O =>
          if prefix old s
          then new ++ replaceFrom old new (String.length old - 1) s'
          else String c (replaceFrom old new 0 s')
      end
  end.

(** [strings.ReplaceAll s old new].  Every call of the program passes a
    non-empty literal for [old]; the empty pattern (insertion at rune
    boundaries in Go) is outside this model, which leaves [s] as it is
    there. *)
Definition ReplaceAll (s old new : string) : string :=
  match old with
  | "" => s
  | _ => replaceFrom old new 0 s
  end.

(** The scan of [strings.Split] for a non-empty [sep]: the fields between
    the leftmost non-overlapping occurrences of [sep]; never the empty
    list. *)
Fixpoint splitFrom (sep : string) (skip : nat) (s : string) : list string :=
  match s with
  | "" => [""]
  | String c s' =>
      match skip with
      | S k => splitFrom sep k s'
      | O =>
          if prefix sep s
          then "" :: splitFrom sep (String.length sep - 1) s'
          else match splitFrom sep 0 s' with
               | f :: fs => String c f :: fs
               | [] => [String c ""]
               end
      end
  end.

Definition Split (s sep : string) : list string := splitFrom sep 0 s.

(** The white space of [unicode.IsSpace], as the UTF-8 byte sequences that
    decode to it: the six ASCII characters of the fast path, then U+0085,
    U+00A0, U+1680, U+2000..U+200A, U+2028, U+2029, U+202F, U+205F and
    U+3000.  No sequence is a prefix or a suffix of another one. *)
Definition asciiSpace : list string :=
  map (fun c => bytes [c]) [9; 10; 11; 12; 13; 32]%nat.

Definition unicodeSpace : list string :=
  map bytes
    ([[194; 133]; [194; 160]; [225; 154; 128]]
     ++ map (fun c => [226; 128; c]) (seq 128 11)
     ++ [[226; 128; 168]; [226; 128; 169]; [226; 128; 175];
         [226; 129; 159]; [227; 128; 128]])%nat%list.

Definition spaces : list string := (asciiSpace ++ unicodeSpace)%list.

(** Width in bytes of the white-space rune [s] starts with, [0] when it
    starts with none: a rune decodes to white space exactly when the bytes
    are one of the sequences above. *)
Fixpoint spaceWidth (encs : list string) (s : string) : nat :=
  match encs with
  | [] => 0
  | e :: encs' => if prefix e s then String.length e else spaceWidth encs' s
  end.

(** Drop leading runes while they are white space. *)
Fixpoint trimFront (encs : list string) (skip : nat) (s : string) : string :=
  match s with
  | "" => ""
  | String _ s' =>
      match skip with
      | S k => trimFront encs k s'
      | O =>
          match spaceWidth encs s with
          | O => s
          | S k => trimFront encs k s'
          end
      end
  end.

Definition TrimLeft (s : string) : string := trimFront spaces 0 s.

(** The same scan from the end ([utf8.DecodeLastRuneInString] finds a
    white-space rune exactly when the string ends with its bytes). *)
Definition TrimRight (s : string) : string :=
  revString (trimFront (map revString spaces) 0 (revString s)).

(** [strings.TrimSpace]: leading, then trailing white space removed. *)
Definition TrimSpace (s : string) : string := TrimRight (TrimLeft s).

End strings.

(** ** Data of the program *)

Record SongData := mkSongData {
  Status : string;
  Title : string;
  Artist : string;
  Lyrics : string
}.

(** A Go [error] is its message; [nil] is [None]. *)
Definition error := string.

Record model := mkModel {
  songData : SongData;
  color : string;
  width : Z;
  height : Z;
  lastError : option error;
  lastSong : string;
  fetchingLyrics : bool
}.

(** Messages delivered to [Update].  [OtherMsg] stands for every message
    type the type switch has no case for. *)
Inductive Msg :=
| KeyMsg (key : string)
| WindowSizeMsg (Width Height : Z)
| lyricsMsg (text : string)
| tickMsg
| OtherMsg.

(** Commands handed back to the runtime: [tea.Quit], the one-second
    [tea.Tick] that produces [tickMsg], and the closure that calls
    [fetchLyrics song].  A [tea.Batch] is the list of its commands, [nil]
    the empty list. *)
Inductive Cmd :=
| Quit
| Tick
| FetchLyrics (song : string).

Inductive result (A : Type) :=
| Ok (a : A)
| Err (e : error).
Arguments Ok {A} a.
Arguments Err {A} e.

(** ** [getSongInfo] *)

Definition emptySong : SongData := mkSongData "" "" "" "".

Definition metadataArgs : list string :=
  ["playerctl"; "metadata"; "--format"; "{{title}}|{{artist}}|{{status}}"].

(** [run] is what [cmd.Run()] gave: [None] when it returned an error,
    [Some out] with the captured standard output otherwise. *)
Definition getSongInfo (run : option string) : result SongData :=
  match run with
  | None => Err "can't get metadata"
  | Some out =>
      let output := strings.TrimSpace out in
      if output =? "" then Err "no song playing"
      else
        match strings.Split output "|" with
        | [p0; p1; p2] =>
            Ok (mkSongData (strings.TrimSpace p2) (strings.TrimSpace p0)
                  (strings.TrimSpace p1) "")
        | _ => Err "unexpected metadata format"
        end
  end.

(** ** [fetchLyrics] *)

(** What the two goquery selections see in a parsed page: the [href] of
    every [a[class^='SearchResultSong']] (empty when the attribute is
    missing) and the text of every [div[class^='Lyrics__Container']] once
    its [br] elements are newlines, both in document order. *)
Record Document := mkDocument {
  SearchResultSong : list string;
  Lyrics__Container : list string
}.

(** [http.Get url]: [None] on a transport error; otherwise the body, which
    [goquery.NewDocumentFromReader] turns into a document or fails on. *)
Definition Network := string -> option (option Document).

Definition searchURL (song : string) : string :=
  "https://genius.com/search?q=" ++ strings.ReplaceAll song " " "%20".

(** The clean-up at the end of [fetchLyrics]. *)
Definition brackets (lyrics : string) : string :=
  strings.ReplaceAll
    (strings.ReplaceAll lyrics "[" (String nl "[")) "]" (String "]" (rep 1)).

Definition collapse (lyrics : string) : string :=
  strings.ReplaceAll lyrics (rep 3) (rep 2).

Definition normalize (lyrics : string) : string :=
  collapse (brackets lyrics).

Fixpoint writeContainers (texts : list string) : string :=
  match texts with
  | [] => ""
  | t :: ts => (t ++ rep 1) ++ writeContainers ts
  end.

Definition fetchLyrics (get : Network) (song : string) : string :=
  match get (searchURL song) with
  | None => "Error fetching lyrics"
  | Some None => "Error parsing search results"
  | Some (Some doc) =>
      let lyricsURL := hd "" (SearchResultSong doc) in
      if lyricsURL =? "" then "No lyrics found"
      else
        match get lyricsURL with
        | None => "Error fetching lyrics page"
        | Some None => "Error parsing lyrics page"
        | Some (Some doc) =>
            let lyrics := writeContainers (Lyrics__Container doc) in
            if (String.length lyrics =? 0)%nat then "No lyrics found"
            else normalize lyrics
        end
  end.

(** ** [Update] *)

(** What one call of [Update] produces: the new model, the command for the
    runtime, and the [playerctl] command lines the call itself has run. *)
Record Step := mkStep {
  st : model;
  cmd : list Cmd;
  exec : list (list string)
}.

Definition controlPlayer (command : string) : list string :=
  ["playerctl"; command].

Definition setFetching (b : bool) (m : model) : model :=
  mkModel (songData m) (color m) (width m) (height m) (lastError m)
    (lastSong m) b.

Definition setSongData (d : SongData) (m : model) : model :=
  mkModel d (color m) (width m) (height m) (lastError m) (lastSong m)
    (fetchingLyrics m).

Definition setLastError (e : option error) (m : model) : model :=
  mkModel (songData m) (color m) (width m) (height m) e (lastSong m)
    (fetchingLyrics m).

Definition setLastSong (s : string) (m : model) : model :=
  mkModel (songData m) (color m) (width m) (height m) (lastError m) s
    (fetchingLyrics m).

Definition setSize (w h : Z) (m : model) : model :=
  mkModel (songData m) (color m) w h (lastError m) (lastSong m)
    (fetchingLyrics m).

Definition setLyrics (l : string) (d : SongData) : SongData :=
  mkSongData (Status d) (Title d) (Artist d) l.

Definition setStatus (s : string) (d : SongData) : SongData :=
  mkSongData s (Title d) (Artist d) (Lyrics d).

(** The query both fetch sites build. *)
Definition songOf (d : SongData) : string := Artist d ++ " " ++ Title d.

Definition Update (run : option string) (m : model) (msg : Msg) : Step :=
  match msg with
  | KeyMsg key =>
      if key =? "q" then mkStep m [Quit] []
      else if key =? "p" then mkStep m [] [controlPlayer "play-pause"]
      else if key =? "n" then mkStep m [] [controlPlayer "next"]
      else if key =? "b" then mkStep m [] [controlPlayer "previous"]
      else if key =? "r" then
        if negb (Title (songData m) =? "") && negb (Artist (songData m) =? "")
        then mkStep (setFetching true m) [FetchLyrics (songOf (songData m))] []
        else mkStep m [] []
      else mkStep m [] []
  | WindowSizeMsg w h => mkStep (setSize w h m) [] []
  | lyricsMsg text =>
      mkStep (setSongData (setLyrics text (songData m)) (setFetching false m))
        [] []
  | tickMsg =>
      match getSongInfo run with
      | Err err => mkStep (setLastError (Some err) m) [Tick] [metadataArgs]
      | Ok data =>
          let currentSong := songOf data in
          if negb (currentSong =? lastSong m) && negb (fetchingLyrics m)
          then
            mkStep
              (setSongData data
                 (setFetching true (setLastSong currentSong m)))
              [Tick; FetchLyrics currentSong] [metadataArgs]
          else
            mkStep
              (setLastError None
                 (setSongData (setStatus (Status data) (songData m)) m))
              [Tick] [metadataArgs]
      end
  | OtherMsg => mkStep m [] []
  end.

Definition initialModel (colorFlag : string) : model :=
  mkModel emptySong colorFlag 0 0 None "" false.

Definition Init : list Cmd := [Tick].

(** ** The runtime around [Update] *)

(** The songs of the fetch closures in a command. *)
Fixpoint fetchesOf (cs : list Cmd) : list string :=
  match cs with
  | [] => []
  | FetchLyrics song :: cs' => song :: fetchesOf cs'
  | _ :: cs' => fetchesOf cs'
  end.

Definition quits (cs : list Cmd) : bool :=
  existsb (fun c => match c with Quit => true | _ => false end) cs.

(** The program as the runtime holds it: the model, the fetch closures it
    has started that have not returned yet (oldest first, each with the song
    it was started for), and whether [tea.Quit] has been run. *)
Record Program := mkProgram {
  mdl : model;
  pending : list string;
  running : bool
}.

(** What can happen next: a key press, a resize, the scheduled tick firing
    (with what [playerctl] answers), the [i]-th pending fetch returning
    (with what the network answered it), or a message [Update] ignores. *)
Inductive Event :=
| Key (key : string)
| Resize (w h : Z)
| Poll (run : option string)
| Done (i : nat) (get : Network)
| Ignored.

Fixpoint dropNth {A : Type} (i : nat) (l : list A) : list A :=
  match l, i with
  | [], _ => []
  | _ :: l', O => l'
  | x :: l', S k => x :: dropNth k l'
  end.

Definition deliver (run : option string) (msg : Msg) (p : Program) : Program :=
  let s := Update run (mdl p) msg in
  mkProgram (st s) (pending p ++ fetchesOf (cmd s))%list
    (negb (quits (cmd s))).

Definition step (p : Program) (e : Event) : Program :=
  if running p then
    match e with
    | Key key => deliver None (KeyMsg key) p
    | Resize w h => deliver None (WindowSizeMsg w h) p
    | Poll run => deliver run tickMsg p
    | Done i get =>
        match nth_error (pending p) i with
        | Some song =>
            deliver None (lyricsMsg (fetchLyrics get song))
              (mkProgram (mdl p) (dropNth i (pending p)) (running p))
        | None => p
        end
    | Ignored => deliver None OtherMsg p
    end
  else p.

Definition start (colorFlag : string) : Program :=
  mkProgram (initialModel colorFlag) (fetchesOf Init) true.

Definition runEvents (p : Program) (es : list Event) : Program :=
  fold_left step es p.

Definition reachable (p : Program) : Prop :=
  exists colorFlag es, p = runEvents (start colorFlag) es.

(** Messages fed to [Update] one after the other, each paired with what
    [playerctl] answers should the handler ask. *)
Definition feed (m : model) (ins : list (option string * Msg)) : model :=
  fold_left (fun m i => st (Update (fst i) m (snd i))) ins m.

Definition isLyricsMsg (msg : Msg) : bool :=
  match msg with
  | lyricsMsg _ => true
  | _ => false
  end.

(** ** Vocabulary of the statements *)

Definition HasPrefix (s p : string) : bool := prefix p s.

Definition HasSuffix (s p : string) : bool :=
  prefix (revString p) (revString s).

(** [Contains s sub]: [sub] occurs somewhere in [s]. *)
Fixpoint Contains (s sub : string) : bool :=
  prefix sub s ||
  match s with
  | "" => false
  | String _ s' => Contains s' sub
  end.

(** Number of occurrences of the byte [c]. *)
Fixpoint countByte (c : ascii) (s : string) : nat :=
  match s with
  | "" => 0
  | String x s' => (if Ascii.eqb x c then 1 else 0) + countByte c s'
  end.

(** The track the model currently shows, as the query built from it. *)
Definition shownSong (m : model) : string := songOf (songData m).

(** Escaping the spaces of a query and nothing else: every space byte
    becomes the three bytes [%20], every other byte is kept. *)
Fixpoint escapeSpaces (s : string) : string :=
  match s with
  | "" => ""
  | String c s' =>
      (if Ascii.eqb c " " then "%20" else String c "") ++ escapeSpaces s'
  end.

(** The spec's words, "URL-encoded": percent-encoding as RFC 3986 defines
    it, where only unreserved bytes (letters, digits, [-], [.], [_], [~])
    stand for themselves. *)
Definition unreserved (c : ascii) : bool :=
  let n := nat_of_ascii c in
  (((65 <=? n) && (n <=? 90)) || ((97 <=? n) && (n <=? 122))
   || ((48 <=? n) && (n <=? 57))
   || (n =? 45) || (n =? 46) || (n =? 95) || (n =? 126))%nat.

Definition hexDigit (n : nat) : ascii :=
  ascii_of_nat (if n <? 10 then 48 + n else 55 + n)%nat.

Fixpoint percentEncode (s : string) : string :=
  match s with
  | "" => ""
  | String c s' =>
      (if unreserved c then String c ""
       else String "%" (String (hexDigit (nat_of_ascii c / 16))
                          (String (hexDigit (nat_of_ascii c mod 16)) "")))
      ++ percentEncode s'
  end.

(** A small network for the examples: one song with one result page. *)
Definition demoNet : Network := fun url =>
  if url =? "https://genius.com/search?q=Artist%20X%20Song%20A"
  then Some (Some (mkDocument ["https://genius.com/Artist-x-song-a-lyrics"] []))
  else if url =? "https://genius.com/Artist-x-song-a-lyrics"
  then Some (Some (mkDocument [] ["[Chorus]"; "la la"]))
  else Some (Some (mkDocument [] [])).

(** The three fields of a well-formed probe output. *)
Definition threeFields (l : list string) : option (string * string * string) :=
  match l with
  | [t; a; s] => Some (t, a, s)
  | _ => None
  end.

(** Messages that are neither a tick, a completion nor the refresh key. *)
Definition quiet (msg : Msg) : bool :=
  match msg with
  | KeyMsg key => negb (key =? "r")
  | WindowSizeMsg _ _ | OtherMsg => true
  | lyricsMsg _ | tickMsg => false
  end.

(** The bookkeeping the tick handler relies on: at most one fetch has not
    returned, and the flag is up while one has not. *)
Definition oneFetch (p : Program) : Prop :=
  (List.length (pending p) <= 1)%nat
  /\ (pending p <> [] -> fetchingLyrics (mdl p) = true).

Definition isRefresh (e : Event) : bool :=
  match e with
  | Key key => key =? "r"
  | _ => false
  end.

(** ** States used in the examples *)

(** The model once the first tick has seen song A: its fetch is under way. *)
Definition playingA : model :=
  st (Update (Some "Song A|Artist X|Playing") (initialModel "2") tickMsg).

(** The same, as the program the runtime holds. *)
Definition fetchingProgram : Program :=
  runEvents (start "2") [Poll (Some "Song A|Artist X|Playing")].

(** The model once the first tick has found no player. *)
Definition failedModel : model :=
  st (Update None (initialModel "2") tickMsg).

(** The program after song A was polled, refreshed by hand while its fetch
    was under way, one of the two fetches returned and song B was polled. *)
Definition staleProgram : Program :=
  runEvents (start "2")
    [Poll (Some "Song A|Artist X|Playing"); Key "r"; Done 0 demoNet;
     Poll (Some "Song B|Artist Y|Playing")].

(** ** [View] *)

(** What [View] takes from lipgloss, for the colour of the model: the
    renderers of its styles ([borderStyle] with its width of 60 included),
    the two joins with their centring, and [lipgloss.Place] with its
    centring. *)
Record Lipgloss := mkLipgloss {
  highlight : string -> string;
  borderStyle : string -> string;
  titleStyle : string -> string;
  labelStyle : string -> string;
  errorStyle : string -> string;
  JoinHorizontal : list string -> string;
  JoinVertical : list string -> string;
  Place : Z -> Z -> string -> string
}.

(** The closure [addLine]: nothing for an empty value, otherwise what
    [fmt.Sprintf] makes of the rendered label, a space, the value and a
    newline. *)
Definition addLine (lip : Lipgloss) (label value : string) : string :=
  if value =? "" then "" else labelStyle lip label ++ " " ++ value ++ rep 1.

Definition trackLines (lip : Lipgloss) (d : SongData) : string :=
  addLine lip "Title: " (Title d) ++ addLine lip "Artist:" (Artist d)
  ++ addLine lip "Status:" (Status d).

(** The builder [content] of [View]. *)
Definition content (lip : Lipgloss) (m : model) : string :=
  match lastError m with
  | Some err => errorStyle lip ("Error: " ++ err)
  | None =>
      trackLines lip (songData m)
      ++ (if fetchingLyrics m then rep 1 ++ "Fetching lyrics..."
          else if Lyrics (songData m) =? "" then ""
          else (rep 1 ++ "Lyrics:" ++ rep 1) ++ Lyrics (songData m))
  end.

Definition helpText (lip : Lipgloss) : string :=
  JoinHorizontal lip
    ["Play/Pause: " ++ highlight lip "p";
     "  Next: " ++ highlight lip "n";
     "  Previous: " ++ highlight lip "b";
     "  Refresh Lyrics: " ++ highlight lip "r";
     "  Quit: " ++ highlight lip "q"].

Definition View (lipgloss : string -> Lipgloss) (m : model) : string :=
  let lip := lipgloss (color m) in
  let contentStr :=
    borderStyle lip
      (titleStyle lip "                Now Playing" ++ rep 2 ++ content lip m)
  in
  let fullUI := JoinVertical lip [contentStr; rep 1 ++ helpText lip] in
  Place lip (width m) (height m) fullUI.

(** ** Further vocabulary *)

(** The text without its newlines. *)
Fixpoint dropNewlines (s : string) : string :=
  match s with
  | "" => ""
  | String c s' =>
      if Ascii.eqb c nl then dropNewlines s' else String c (dropNewlines s')
  end.

(** Every opening bracket comes right after a newline ([afterNL] tells
    whether the text itself does). *)
Fixpoint opensLine (afterNL : bool) (s : string) : bool :=
  match s with
  | "" => true
  | String c s' =>
      (if Ascii.eqb c "[" then afterNL else true)
      && opensLine (Ascii.eqb c nl) s'
  end.

(** Every closing bracket is followed by a newline. *)
Fixpoint closesLine (s : string) : bool :=
  match s with
  | "" => true
  | String c s' =>
      (if Ascii.eqb c "]" then HasPrefix s' (rep 1) else true)
      && closesLine s'
  end.

Fixpoint ticksOf (cs : list Cmd) : nat :=
  match cs with
  | [] => 0
  | Tick :: cs' => S (ticksOf cs')
  | _ :: cs' => ticksOf cs'
  end.

(** The polls of a list of [playerctl] answers, as messages for [feed]. *)
Definition polls (runs : list (option string)) : list (option string * Msg) :=
  map (fun run => (run, tickMsg)) runs.

Definition probeFails (run : option string) : bool :=
  match getSongInfo run with
  | Ok _ => false
  | Err _ => true
  end.

(** The flag is up only while some fetch has not returned. *)
Definition flagHasFetch (p : Program) : Prop :=
  fetchingLyrics (mdl p) = true -> pending p <> [].

(** The track shown is the one the last tick-started fetch was for, or no
    track has been seen yet. *)
Definition shownIsLast (m : model) : Prop :=
  lastSong m = shownSong m
  \/ (lastSong m = "" /\ Title (songData m) = "" /\ Artist (songData m) = "").

(** Every fetch that has not returned is for the track the model is on. *)
Definition freshFetches (p : Program) : Prop :=
  Forall (fun song => song = lastSong (mdl p) /\ song = shownSong (mdl p))
    (pending p).

(** A lipgloss that renders nothing, for the examples. *)
Definition plain : Lipgloss :=
  mkLipgloss (fun s => s) (fun s => s) (fun s => s) (fun s => s) (fun s => s)
    (String.concat "") (String.concat (rep 1)) (fun _ _ s => s).

(** ** Text as runs of newlines *)

(** A text is its bytes other than the newline, each with the number of
    newlines that come right before it, and the number of newlines at the
    end: [build [(2, "a"); (0, "b")] 1] is two newlines, [ab], one
    newline. *)
Fixpoint build (l : list (nat * ascii)) (last : nat) : string :=
  match l with
  | [] => rep last
  | (n, c) :: l' => rep n ++ String c (build l' last)
  end.

Fixpoint parseRuns (s : string) : list (nat * ascii) :=
  match s with
  | "" => []
  | String c s' =>
      if Ascii.eqb c nl then
        match parseRuns s' with
        | [] => []
        | (n, d) :: l => (S n, d) :: l
        end
      else (0, c) :: parseRuns s'
  end.

Fixpoint parseLast (s : string) : nat :=
  match s with
  | "" => 0
  | String c s' =>
      if Ascii.eqb c nl then
        match parseRuns s' with
        | [] => S (parseLast s')
        | _ :: _ => parseLast s'
        end
      else parseLast s'
  end.

Definition b2n (b : bool) : nat := if b then 1 else 0.

(** What the collapse leaves of a run of [n] newlines. *)
Definition keep (n : nat) : nat := n - n / 3.

(** Every run of a text with the number of brackets that touch it: an
    opening bracket right after the run, a closing bracket right before it
    ([afterClose] tells whether the text itself follows one).  Empty runs
    are listed too. *)
Fixpoint touched (afterClose : bool) (l : list (nat * ascii)) (last : nat)
  : list (nat * nat) :=
  match l with
  | [] => [(last, b2n afterClose)]
  | (n, c) :: l' =>
      (n, b2n afterClose + b2n (Ascii.eqb c "["))
      :: touched (Ascii.eqb c "]") l' last
  end.

(** The lengths a second clean-up leaves alone: at most three newlines
    where no bracket touches the run, one to five where one does, three to
    seven between a closing and an opening bracket. *)
Definition runStable (rk : nat * nat) : bool :=
  match snd rk with
  | 0 => fst rk <=? 3
  | 1 => (1 <=? fst rk) && (fst rk <=? 5)
  | _ => (3 <=? fst rk) && (fst rk <=? 7)
  end%nat.

Definition stable (x : string) : bool :=
  forallb runStable (touched false (parseRuns x) (parseLast x)).

(** The clean-up on runs: the brackets add a newline to the runs they
    touch, the collapse then keeps [keep] of each. *)
Fixpoint bracketRuns (afterClose : bool) (l : list (nat * ascii))
  : list (nat * ascii) :=
  match l with
  | [] => []
  | (n, c) :: l' =>
      ((n + (b2n afterClose + b2n (Ascii.eqb c "[")))%nat, c)
      :: bracketRuns (Ascii.eqb c "]") l'
  end.

Fixpoint bracketLast (afterClose : bool) (l : list (nat * ascii)) (last : nat)
  : nat :=
  match l with
  | [] => (last + b2n afterClose)%nat
  | (_, c) :: l' => bracketLast (Ascii.eqb c "]") l' last
  end.

Definition keepRuns (l : list (nat * ascii)) : list (nat * ascii) :=
  map (fun nc => (keep (fst nc), snd nc)) l.

Definition wellFormed (l : list (nat * ascii)) : Prop :=
  Forall (fun nc => snd nc <> nl) l.

(** Messages other than a tick and the refresh key. *)
Definition calm (msg : Msg) : bool :=
  match msg with
  | KeyMsg key => negb (key =? "r")
  | tickMsg => false
  | _ => true
  end.

(** Messages that can come between two ticks in a row without being a
    fetch completion: keys (the refresh key too), resizes, and what
    [Update] ignores. *)
Definition betweenTicks (msg : Msg) : bool :=
  match msg with
  | lyricsMsg _ | tickMsg => false
  | _ => true
  end.

(** The model while the fetch for song A is under way and the probe has
    reported song B once. *)
Definition changedDuringFetch : model :=
  st (Update (Some "Song B|Artist Y|Playing") playingA tickMsg).

(** ** White-space trimming, as a relation *)

(** A text made of white-space runes only. *)
Inductive BlankOf (encs : list string) : string -> Prop :=
| Blank_nil : BlankOf encs ""
| Blank_cons (e w : string) :
    In e encs -> BlankOf encs w -> BlankOf encs (e ++ w).

Definition Blank : string -> Prop := BlankOf strings.spaces.

(** The white-space runes, read from the end. *)
Definition revSpaces : list string := map revString strings.spaces.

Definition startsWithSpace (s : string) : bool :=
  existsb (fun e => prefix e s) strings.spaces.

Definition endsWithSpace (s : string) : bool :=
  existsb (fun e => HasSuffix s e) strings.spaces.

(** [core] is [s] with its leading and trailing white space removed: [s]
    is [core] between two blank texts, and [core] neither starts nor ends
    with a white-space rune. *)
Definition Trimmed (s core : string) : Prop :=
  (exists l r, s = l ++ core ++ r /\ Blank l /\ Blank r)
  /\ startsWithSpace core = false
  /\ endsWithSpace core = false.

(** The ends of a text after its first byte, and whether two texts start
    with the same byte. *)
Fixpoint tailsOf (s : string) : list string :=
  match s with
  | "" => []
  | String _ s' => s' :: tailsOf s'
  end.

Definition sameHead (a b : string) : bool :=
  match a, b with
  | String x _, String y _ => Ascii.eqb x y
  | _, _ => false
  end.

(** * Properties *)

(** ** Strings *)

Section StringFacts.

Lemma append_nil_r (s : string) : s ++ "" = s.
Proof. induction s as [|c s IH]; simpl; [reflexivity | now rewrite IH]. Qed.

Lemma append_assoc (a b c : string) : (a ++ b) ++ c = a ++ (b ++ c).
Proof. induction a as [|x a IH]; simpl; [reflexivity | now rewrite IH]. Qed.

Lemma length_append (a b : string) :
  String.length (a ++ b) = (String.length a + String.length b)%nat.
Proof. induction a as [|x a IH]; simpl; [reflexivity | now rewrite IH]. Qed.

Lemma prefix_append (p t : string) : prefix p (p ++ t) = true.
Proof.
  induction p as [|x p IH]; simpl.
  - now destruct t.
  - destruct (ascii_dec x x) as [_|N]; [exact IH | now elim N].
Qed.

Lemma prefix_nil (s : string) : prefix "" s = true.
Proof. now destruct s. Qed.

Lemma prefix_cons (x c : ascii) (p s : string) :
  prefix (String x p) (String c s) = Ascii.eqb x c && prefix p s.
Proof.
  simpl. destruct (ascii_dec x c) as [E|N].
  - subst. now rewrite Ascii.eqb_refl.
  - apply Ascii.eqb_neq in N. now rewrite N.
Qed.

Lemma rep_add (a b : nat) : rep (a + b) = rep a ++ rep b.
Proof. induction a as [|a IH]; simpl; [reflexivity | now rewrite IH]. Qed.

Lemma rep_snoc (n : nat) : rep n ++ String nl "" = String nl (rep n).
Proof. induction n as [|n IH]; simpl; [reflexivity | now rewrite IH]. Qed.

End StringFacts.

(** ** [strings.ReplaceAll] *)

Section ReplaceFacts.

Variables old new : string.

Lemma replaceFrom_skip (u t : string) :
  strings.replaceFrom old new (String.length u) (u ++ t)
  = strings.replaceFrom old new 0 t.
Proof. induction u as [|x u IH]; simpl; [reflexivity | exact IH]. Qed.

Lemma replaceFrom_hit (t : string) :
  old <> "" ->
  strings.replaceFrom old new 0 (old ++ t)
  = new ++ strings.replaceFrom old new 0 t.
Proof.
  intros Hne. pose proof (prefix_append old t) as Hp.
  pose proof (replaceFrom_skip old t) as Hs.
  destruct old as [|o os]; [now elim Hne|].
  cbn [append strings.replaceFrom String.length] in *.
  rewrite Hp, Nat.sub_succ, Nat.sub_0_r.
  destruct os as [|o' os']; cbn in *; now rewrite ?Hs.
Qed.

Lemma replaceFrom_miss (c : ascii) (s : string) :
  prefix old (String c s) = false ->
  strings.replaceFrom old new 0 (String c s)
  = String c (strings.replaceFrom old new 0 s).
Proof. intros H. cbn [strings.replaceFrom]. now rewrite H. Qed.

Lemma replaceFrom_absent (s : string) :
  Contains s old = false -> strings.replaceFrom old new 0 s = s.
Proof.
  induction s as [|c s IH]; intros H; [reflexivity|].
  cbn [Contains] in H. apply orb_false_iff in H as [Hp Hc].
  rewrite replaceFrom_miss by exact Hp. now rewrite IH.
Qed.

Lemma ReplaceAll_absent (s : string) :
  Contains s old = false -> strings.ReplaceAll s old new = s.
Proof.
  intros H. unfold strings.ReplaceAll. destruct old eqn:E; [reflexivity|].
  rewrite <- E in *. now apply replaceFrom_absent.
Qed.

End ReplaceFacts.

(** The three equations that determine [collapse]. *)

Lemma collapse_nil : collapse "" = "".
Proof. reflexivity. Qed.

Lemma collapse_hit (t : string) : collapse (rep 3 ++ t) = rep 2 ++ collapse t.
Proof.
  unfold collapse, strings.ReplaceAll. cbn [rep].
  now rewrite replaceFrom_hit.
Qed.

Lemma collapse_miss (c : ascii) (s : string) :
  prefix (rep 3) (String c s) = false ->
  collapse (String c s) = String c (collapse s).
Proof.
  intros H. unfold collapse, strings.ReplaceAll. cbn [rep] in *.
  now rewrite replaceFrom_miss.
Qed.

(** ** Runs of newlines *)

Section Runs.

Lemma rep_shift (n : nat) (t : string) :
  rep n ++ String nl t = rep (S n) ++ t.
Proof. induction n as [|n IH]; simpl in *; [reflexivity | now rewrite IH]. Qed.

Lemma no_lead_cons (c : ascii) (t : string) :
  c <> nl -> HasPrefix (String c t) (rep 1) = false.
Proof.
  intros N. unfold HasPrefix. cbn [rep]. rewrite prefix_cons.
  apply andb_false_iff. left. apply Ascii.eqb_neq. congruence.
Qed.

Lemma no_lead_inv (t : string) :
  HasPrefix t (rep 1) = false ->
  t = "" \/ exists c t', t = String c t' /\ c <> nl.
Proof.
  destruct t as [|c t']; [now left|]. intros H. right. exists c, t'.
  split; [reflexivity|]. intros ->. unfold HasPrefix in H. cbn [rep] in H.
  rewrite prefix_cons, Ascii.eqb_refl, prefix_nil in H. discriminate.
Qed.

(** Every string is a sequence of newline runs and other bytes. *)
Lemma run_ind (P : string -> Prop) :
  P "" ->
  (forall c t, c <> nl -> P t -> P (String c t)) ->
  (forall n t, 0 < n -> HasPrefix t (rep 1) = false -> P t -> P (rep n ++ t)) ->
  forall s, P s.
Proof.
  intros H0 Hc Hr s.
  enough (G : forall n, P (rep n ++ s)) by exact (G 0).
  induction s as [|c t IH]; intros n.
  - destruct n as [|n]; [exact H0|]. apply Hr; [lia | reflexivity | exact H0].
  - destruct (ascii_dec c nl) as [->|N].
    + rewrite rep_shift. apply IH.
    + assert (Pc : P (String c t)) by (apply Hc; [exact N | exact (IH 0)]).
      destruct n as [|n]; [exact Pc|].
      apply Hr; [lia | now apply no_lead_cons | exact Pc].
Qed.

Lemma prefix_run (k n : nat) (t : string) :
  HasPrefix t (rep 1) = false ->
  prefix (rep (S k)) (rep n ++ t) = (S k <=? n)%nat.
Proof.
  intros Ht. revert k. induction n as [|n IH]; intros k.
  - cbn [rep append]. destruct (no_lead_inv t Ht) as [->|(c & t' & -> & N)].
    + reflexivity.
    + rewrite prefix_cons. apply andb_false_iff. left.
      apply Ascii.eqb_neq. congruence.
  - cbn [rep append]. rewrite prefix_cons, Ascii.eqb_refl. cbn [andb].
    destruct k as [|k]; [now rewrite prefix_nil|]. now rewrite IH.
Qed.

Lemma Contains_run (k n : nat) (t : string) :
  HasPrefix t (rep 1) = false ->
  Contains (rep n ++ t) (rep (S k))
  = ((S k <=? n)%nat || Contains t (rep (S k))).
Proof.
  intros Ht. induction n as [|n IH]; [reflexivity|].
  change (rep (S n) ++ t) with (String nl (rep n ++ t)).
  cbn [Contains]. change (String nl (rep n ++ t)) with (rep (S n) ++ t).
  rewrite prefix_run by exact Ht. rewrite IH.
  destruct (Nat.leb_spec (S k) (S n)), (Nat.leb_spec (S k) n);
    cbn [orb]; try reflexivity; lia.
Qed.

Lemma Contains_other (k : nat) (c : ascii) (t : string) :
  c <> nl -> Contains (String c t) (rep (S k)) = Contains t (rep (S k)).
Proof.
  intros N. cbn [Contains rep]. rewrite prefix_cons.
  replace (Ascii.eqb nl c) with false; [reflexivity|].
  symmetry. apply Ascii.eqb_neq. congruence.
Qed.

(** A byte other than the newline is copied by [collapse]. *)
Lemma collapse_other (c : ascii) (t : string) :
  c <> nl -> collapse (String c t) = String c (collapse t).
Proof.
  intros N. apply collapse_miss. cbn [rep]. rewrite prefix_cons.
  apply andb_false_iff. left. apply Ascii.eqb_neq. congruence.
Qed.

Lemma collapse_no_lead (t : string) :
  HasPrefix t (rep 1) = false -> HasPrefix (collapse t) (rep 1) = false.
Proof.
  intros Ht. destruct (no_lead_inv t Ht) as [->|(c & t' & -> & N)].
  - reflexivity.
  - rewrite collapse_other by exact N. now apply no_lead_cons.
Qed.

(** A maximal run of [n] newlines loses one newline in three. *)
Lemma collapse_run (n : nat) (t : string) :
  HasPrefix t (rep 1) = false ->
  collapse (rep n ++ t) = rep (n - n / 3) ++ collapse t.
Proof.
  intros Ht. induction n as [n IH] using lt_wf_ind.
  destruct n as [|[|[|k]]].
  - reflexivity.
  - cbn [rep append]. rewrite collapse_miss; [reflexivity|].
    change (String nl t) with (rep 1 ++ t). now rewrite prefix_run.
  - cbn [rep append]. rewrite collapse_miss.
    + rewrite collapse_miss; [reflexivity|].
      change (String nl t) with (rep 1 ++ t). now rewrite prefix_run.
    + change (String nl (String nl t)) with (rep 2 ++ t).
      now rewrite prefix_run.
  - change (S (S (S k))) with (3 + k)%nat at 1.
    rewrite rep_add, append_assoc, collapse_hit, IH by lia.
    rewrite <- append_assoc, <- rep_add. f_equal. f_equal.
    change (S (S (S k))) with (1 * 3 + k)%nat.
    rewrite Nat.div_add_l by lia.
    pose proof (Nat.Div0.div_le_upper_bound k 3 k). lia.
Qed.

End Runs.

(** ** The clean-up of fetched lyrics *)

Section Normalize.

Lemma suffix_cons (c : ascii) (t : string) :
  t <> "" -> HasSuffix (String c t) (rep 1) = HasSuffix t (rep 1).
Proof.
  intros Hne. unfold HasSuffix. cbn [rep revString append].
  destruct t as [|y t']; [now elim Hne|].
  destruct (revString (String y t')) as [|z r] eqn:E.
  - exfalso. cbn [revString] in E. destruct (revString t'); discriminate.
  - cbn [append]. now rewrite !prefix_cons, !prefix_nil.
Qed.

Lemma suffix_app (s t : string) :
  t <> "" -> HasSuffix (s ++ t) (rep 1) = HasSuffix t (rep 1).
Proof.
  intros Hne. induction s as [|c s IH]; [reflexivity|].
  cbn [append]. rewrite suffix_cons; [exact IH|].
  destruct s; [exact Hne | discriminate].
Qed.

Lemma suffix_rep (n : nat) : HasSuffix (rep (S n)) (rep 1) = true.
Proof.
  change (rep (S n)) with (String nl (rep n)). rewrite <- rep_snoc.
  rewrite suffix_app by discriminate. reflexivity.
Qed.

(** Text that does not end in a newline is cleaned up on its own. *)
Lemma collapse_app (pre s : string) :
  HasSuffix pre (rep 1) = false ->
  collapse (pre ++ s) = collapse pre ++ collapse s.
Proof.
  revert s. pattern pre. apply run_ind; clear pre.
  - reflexivity.
  - intros c t N IH s Hs. cbn [append]. rewrite !collapse_other by exact N.
    cbn [append]. f_equal. apply IH.
    destruct t as [|y t']; [reflexivity|].
    now rewrite suffix_cons in Hs by discriminate.
  - intros n t Hn Ht IH s Hs.
    destruct t as [|y t'].
    + rewrite append_nil_r in Hs. destruct n as [|n]; [lia|].
      now rewrite suffix_rep in Hs.
    + rewrite suffix_app in Hs by discriminate.
      assert (Ht' : HasPrefix (String y t' ++ s) (rep 1) = false).
      { unfold HasPrefix in *. cbn [append rep] in *.
        now rewrite prefix_cons, prefix_nil in *. }
      rewrite append_assoc, !collapse_run; [|exact Ht|exact Ht'].
      now rewrite IH, append_assoc.
Qed.

Lemma suffix_other (c : ascii) (u : string) :
  c <> nl -> HasSuffix u (rep 1) = false ->
  HasSuffix (String c u) (rep 1) = false.
Proof.
  intros N Hu. destruct u as [|y u'].
  - unfold HasSuffix. cbn [revString rep append]. rewrite prefix_cons.
    apply andb_false_iff. left. apply Ascii.eqb_neq. congruence.
  - now rewrite suffix_cons by discriminate.
Qed.

Lemma collapse_no_trail (pre : string) :
  HasSuffix pre (rep 1) = false -> HasSuffix (collapse pre) (rep 1) = false.
Proof.
  pattern pre. apply run_ind; clear pre.
  - intros _. reflexivity.
  - intros c t N IH H. rewrite collapse_other by exact N.
    apply suffix_other; [exact N|]. apply IH.
    destruct t as [|y t']; [reflexivity|].
    now rewrite suffix_cons in H by discriminate.
  - intros n t Hn Ht IH H. destruct t as [|y t'].
    + rewrite append_nil_r in H. destruct n as [|n]; [lia|].
      now rewrite suffix_rep in H.
    + rewrite suffix_app in H by discriminate.
      rewrite collapse_run by exact Ht.
      destruct (no_lead_inv _ Ht) as [E|(c & u & E & N)]; [discriminate|].
      injection E as -> ->. rewrite collapse_other in * by exact N.
      rewrite suffix_app by discriminate. now apply IH.
Qed.

Lemma Contains_byte_cons (c x : ascii) (t : string) :
  Contains (String x t) (String c "")
  = (Ascii.eqb c x || Contains t (String c "")).
Proof. cbn [Contains]. now rewrite prefix_cons, prefix_nil, andb_true_r. Qed.

Lemma Contains_byte_run (c : ascii) (n : nat) (t : string) :
  c <> nl -> Contains (rep n ++ t) (String c "") = Contains t (String c "").
Proof.
  intros N. induction n as [|n IH]; [reflexivity|].
  cbn [rep append]. rewrite Contains_byte_cons, IH.
  apply Ascii.eqb_neq in N. now rewrite N.
Qed.

(** [collapse] brings in no byte that was not there. *)
Lemma collapse_keeps_absent (c : ascii) (s : string) :
  c <> nl ->
  Contains s (String c "") = false ->
  Contains (collapse s) (String c "") = false.
Proof.
  intros N. pattern s. apply run_ind; clear s.
  - intros _. reflexivity.
  - intros x t Nx IH H. rewrite Contains_byte_cons in H.
    apply orb_false_iff in H as [Hx Ht].
    rewrite collapse_other by exact Nx.
    now rewrite Contains_byte_cons, Hx, IH.
  - intros n t _ Ht IH H. rewrite Contains_byte_run in H by exact N.
    rewrite collapse_run by exact Ht.
    now rewrite Contains_byte_run, IH.
Qed.

(** Runs of at most three newlines come out as runs of at most two. *)
Lemma collapse_short_runs (s : string) :
  Contains s (rep 4) = false -> Contains (collapse s) (rep 3) = false.
Proof.
  pattern s. apply run_ind; clear s.
  - intros _. reflexivity.
  - intros c t N IH H. rewrite Contains_other in H by exact N.
    rewrite collapse_other by exact N.
    now rewrite Contains_other, IH.
  - intros n t _ Ht IH H. rewrite Contains_run in H by exact Ht.
    apply orb_false_iff in H as [Hn Hc].
    rewrite collapse_run by exact Ht.
    rewrite Contains_run by now apply collapse_no_lead.
    rewrite IH by exact Hc. rewrite orb_false_r.
    apply Nat.leb_gt in Hn. apply Nat.leb_gt.
    destruct n as [|[|[|[|k]]]]; cbn; lia.
Qed.

Lemma brackets_absent (x : string) :
  Contains x "[" = false -> Contains x "]" = false -> brackets x = x.
Proof.
  intros Ho Hc. unfold brackets.
  rewrite (ReplaceAll_absent "[" _ x) by exact Ho.
  now apply ReplaceAll_absent.
Qed.

(** On text without square brackets and without a run of four or more
    newlines, cleaning up twice gives what cleaning up once gives. *)
Theorem normalize_idempotent_on_plain_text (x : string) :
  Contains x "[" = false ->
  Contains x "]" = false ->
  Contains x (rep 4) = false ->
  normalize (normalize x) = normalize x.
Proof.
  intros Ho Hc Hr. unfold normalize at 2 3.
  rewrite brackets_absent by assumption.
  unfold normalize. rewrite brackets_absent.
  - apply ReplaceAll_absent. now apply collapse_short_runs.
  - apply collapse_keeps_absent; [discriminate | exact Ho].
  - apply collapse_keeps_absent; [discriminate | exact Hc].
Qed.

Lemma normalize_idempotent_on_plain_text_witness :
  let x := "line one" ++ rep 3 ++ "line two" ++ rep 1 in
  normalize (normalize x) = normalize x.
Proof.
  apply normalize_idempotent_on_plain_text; reflexivity.
Defined.

(** C2, as the spec words it, fails on a section marker: the second pass
    puts another newline before the bracket and after the closing one. *)
Lemma normalize_not_idempotent :
  normalize (normalize "[Chorus]") <> normalize "[Chorus]"
  /\ normalize "[Chorus]" = rep 1 ++ "[Chorus]" ++ rep 1
  /\ normalize (normalize "[Chorus]") = rep 2 ++ "[Chorus]" ++ rep 2.
Proof. repeat split; vm_compute; discriminate. Qed.

(** C4, as the code has it: a maximal run of [n] newlines of the text the
    collapse is applied to comes out as a run of [n - n / 3] newlines (three
    become two, one and two stay, four become three), the text on either
    side being cleaned up on its own. *)
Theorem normalize_newline_run (x pre post : string) (n : nat) :
  brackets x = pre ++ rep n ++ post ->
  HasSuffix pre (rep 1) = false ->
  HasPrefix post (rep 1) = false ->
  normalize x = collapse pre ++ rep (n - n / 3) ++ collapse post
  /\ HasSuffix (collapse pre) (rep 1) = false
  /\ HasPrefix (collapse post) (rep 1) = false.
Proof.
  intros E Hpre Hpost. unfold normalize. rewrite E. repeat split.
  - rewrite collapse_app by exact Hpre. now rewrite collapse_run.
  - now apply collapse_no_trail.
  - now apply collapse_no_lead.
Qed.

Lemma normalize_newline_run_witness :
  normalize ("a]" ++ rep 4 ++ "[b")
  = collapse "a]" ++ rep (6 - 6 / 3) ++ collapse "[b"
  /\ HasSuffix (collapse "a]") (rep 1) = false
  /\ HasPrefix (collapse "[b") (rep 1) = false.
Proof.
  apply (normalize_newline_run ("a]" ++ rep 4 ++ "[b") "a]" "[b" 6);
    reflexivity.
Defined.

(** C4, as the spec words it, fails on four blank lines in a row: three of
    them are left. *)
Lemma normalize_leaves_long_run :
  normalize ("a" ++ rep 4 ++ "b") = "a" ++ rep 3 ++ "b"
  /\ Contains (normalize ("a" ++ rep 4 ++ "b")) (rep 3) = true.
Proof. split; reflexivity. Qed.

End Normalize.

(** ** [getSongInfo] *)

Section Probe.

Lemma Split_byte_cons (d c : ascii) (s : string) :
  strings.Split (String c s) (String d "")
  = if Ascii.eqb d c then "" :: strings.Split s (String d "")
    else match strings.Split s (String d "") with
         | f :: fs => String c f :: fs
         | [] => [String c ""]
         end.
Proof.
  unfold strings.Split. cbn [strings.splitFrom String.length Nat.sub].
  now rewrite prefix_cons, prefix_nil, andb_true_r.
Qed.

(** One field more than there are separators. *)
Lemma Split_length (d : ascii) (s : string) :
  List.length (strings.Split s (String d "")) = S (countByte d s).
Proof.
  induction s as [|c s IH]; [reflexivity|].
  rewrite Split_byte_cons. cbn [countByte]. rewrite (Ascii.eqb_sym c d).
  destruct (Ascii.eqb d c); cbn [List.length]; [now rewrite IH|].
  destruct (strings.Split s (String d "")); cbn [List.length] in *; lia.
Qed.

(** The fields, put back together around the separator, are the input. *)
Lemma Split_join (d : ascii) (s : string) :
  String.concat (String d "") (strings.Split s (String d "")) = s.
Proof.
  induction s as [|c s IH]; [reflexivity|].
  rewrite Split_byte_cons. destruct (Ascii.eqb_spec d c) as [->|N].
  - pose proof (Split_length c s) as L.
    destruct (strings.Split s (String c "")) as [|f fs]; [discriminate|].
    cbn [String.concat append] in *. now rewrite IH.
  - pose proof (Split_length d s) as L.
    destruct (strings.Split s (String d "")) as [|f fs]; [discriminate|].
    destruct fs; cbn [String.concat append] in *; now rewrite IH.
Qed.

(** No field holds a separator. *)
Lemma Split_fields (d : ascii) (s : string) :
  Forall (fun f => countByte d f = 0%nat) (strings.Split s (String d "")).
Proof.
  induction s as [|c s IH]; [repeat constructor|].
  rewrite Split_byte_cons. destruct (Ascii.eqb_spec d c) as [->|N].
  - constructor; [reflexivity | exact IH].
  - destruct (strings.Split s (String d "")) as [|f fs].
    + repeat constructor. cbn [countByte].
      destruct (Ascii.eqb_spec c d); [congruence | reflexivity].
    + inversion IH; subst. constructor; [|assumption].
      cbn [countByte]. destruct (Ascii.eqb_spec c d); [congruence | assumption].
Qed.

Lemma threeFields_length (l : list string) :
  threeFields l = None <-> List.length l <> 3%nat.
Proof.
  destruct l as [|t [|a [|s [|x l]]]]; cbn; split; intros H;
    try reflexivity; try discriminate; try lia; now elim H.
Qed.

Lemma threeFields_some (l : list string) (t a s : string) :
  threeFields l = Some (t, a, s) <-> l = [t; a; s].
Proof.
  destruct l as [|t' [|a' [|s' [|x l]]]]; cbn; split; intros H;
    try discriminate; congruence.
Qed.

Lemma getSongInfo_cases (out : string) :
  getSongInfo (Some out)
  = if strings.TrimSpace out =? "" then Err "no song playing"
    else match threeFields (strings.Split (strings.TrimSpace out) "|") with
         | Some (t, a, s) =>
             Ok (mkSongData (strings.TrimSpace s) (strings.TrimSpace t)
                   (strings.TrimSpace a) "")
         | None => Err "unexpected metadata format"
         end.
Proof.
  unfold getSongInfo. destruct (strings.TrimSpace out =? ""); [reflexivity|].
  now destruct (strings.Split (strings.TrimSpace out) "|")
    as [|t [|a [|s [|x l]]]].
Qed.

(** For every output the utility printed, the probe reports "no song
    playing" exactly when the trimmed output is empty, "unexpected metadata
    format" exactly when the trimmed output is not empty and does not split
    at the pipes into three fields, and otherwise succeeds with the three
    fields, each trimmed, as title, artist and status. *)
Theorem getSongInfo_outcomes (out : string) :
  (getSongInfo (Some out) = Err "no song playing"
   <-> strings.TrimSpace out = "")
  /\ (getSongInfo (Some out) = Err "unexpected metadata format"
      <-> strings.TrimSpace out <> ""
          /\ List.length (strings.Split (strings.TrimSpace out) "|") <> 3%nat)
  /\ (forall d, getSongInfo (Some out) = Ok d
      <-> strings.TrimSpace out <> ""
          /\ exists t a s,
               strings.Split (strings.TrimSpace out) "|" = [t; a; s]
               /\ d = mkSongData (strings.TrimSpace s) (strings.TrimSpace t)
                        (strings.TrimSpace a) "")
  /\ (strings.TrimSpace out <> "" ->
      List.length (strings.Split (strings.TrimSpace out) "|") = 3%nat ->
      exists d, getSongInfo (Some out) = Ok d)
  /\ (List.length (strings.Split (strings.TrimSpace out) "|") = 3%nat
      <-> countByte "|" (strings.TrimSpace out) = 2%nat).
Proof.
  rewrite getSongInfo_cases. set (output := strings.TrimSpace out).
  assert (L : List.length (strings.Split output "|") = 3%nat
              <-> countByte "|" output = 2%nat)
    by (rewrite Split_length; lia).
  destruct (String.eqb_spec output "") as [E|N].
  - split; [tauto|]. split; [split; [discriminate | tauto]|].
    split; [intros d; split; [discriminate | tauto]|].
    split; [tauto | exact L].
  - pose proof (threeFields_length (strings.Split output "|")) as T.
    pose proof (threeFields_some (strings.Split output "|")) as U.
    destruct (threeFields (strings.Split output "|")) as [[[t a] s]|].
    + specialize (U t a s). destruct U as [U _]. specialize (U eq_refl).
      split; [split; [discriminate | tauto]|].
      split; [split; [discriminate|]|].
      { intros [_ H]. rewrite U in H. now elim H. }
      split; [|split; [eauto | exact L]].
      intros d; split.
      * intros H. injection H as <-. split; [exact N|]. now exists t, a, s.
      * intros [_ (t' & a' & s' & H & ->)]. rewrite U in H.
        now injection H as -> -> ->.
    + destruct T as [T _]. specialize (T eq_refl).
      split; [split; [discriminate | tauto]|].
      split; [tauto|].
      split; [|split; [tauto | exact L]].
      intros d; split; [discriminate|].
      intros [_ (t' & a' & s' & H & _)]. rewrite H in T. now elim T.
Qed.

Lemma spaceWidth_nil (encs : list string) : strings.spaceWidth encs "" = 0%nat.
Proof.
  induction encs as [|e encs IH]; [reflexivity|].
  cbn [strings.spaceWidth]. destruct e; [reflexivity | exact IH].
Qed.

(** What [trimFront] returns starts with no white-space rune. *)
Lemma trimFront_done (encs : list string) (s : string) (skip : nat) :
  strings.spaceWidth encs (strings.trimFront encs skip s) = 0%nat.
Proof.
  revert skip. induction s as [|c s IH]; intros skip.
  - apply spaceWidth_nil.
  - cbn [strings.trimFront]. destruct skip as [|k]; [|apply IH].
    destruct (strings.spaceWidth encs (String c s)) eqn:W;
      [exact W | apply IH].
Qed.

Lemma revString_append (a b : string) :
  revString (a ++ b) = revString b ++ revString a.
Proof.
  induction a as [|x a IH]; cbn [append revString].
  - now rewrite append_nil_r.
  - now rewrite IH, append_assoc.
Qed.

Lemma revString_involutive (s : string) : revString (revString s) = s.
Proof.
  induction s as [|c s IH]; [reflexivity|].
  cbn [revString]. now rewrite revString_append, IH.
Qed.

Lemma TrimLeft_no_leading_space (s : string) :
  strings.spaceWidth strings.spaces (strings.TrimLeft s) = 0%nat.
Proof. apply trimFront_done. Qed.

Lemma TrimSpace_no_trailing_space (s : string) :
  strings.spaceWidth (map revString strings.spaces)
    (revString (strings.TrimSpace s)) = 0%nat.
Proof.
  unfold strings.TrimSpace, strings.TrimRight.
  rewrite revString_involutive. apply trimFront_done.
Qed.

(** The trimming on some probe outputs. *)
Example TrimSpace_ascii :
  strings.TrimSpace ("  Song A|Artist X|Playing " ++ rep 1)
  = "Song A|Artist X|Playing".
Proof. reflexivity. Qed.

Example TrimSpace_blank : strings.TrimSpace (String "009" (rep 2)) = "".
Proof. reflexivity. Qed.

Example TrimSpace_no_break_space :
  strings.TrimSpace (bytes [194; 160; 65; 226; 128; 175; 32]) = "A".
Proof. reflexivity. Qed.

Example TrimSpace_inner_space : strings.TrimSpace " a  b " = "a  b".
Proof. reflexivity. Qed.

Example getSongInfo_ok :
  getSongInfo (Some (" Song A | Artist X |Playing" ++ rep 1))
  = Ok (mkSongData "Playing" "Song A" "Artist X" "").
Proof. reflexivity. Qed.

Example getSongInfo_two_fields :
  getSongInfo (Some "Song A|Playing") = Err "unexpected metadata format".
Proof. reflexivity. Qed.

Example getSongInfo_pipe_in_title :
  getSongInfo (Some "A|B|Artist X|Playing")
  = Err "unexpected metadata format".
Proof. reflexivity. Qed.

End Probe.

(** ** [Update]: one message at a time *)

Section Handlers.

Lemma update_lyrics (run : option string) (m : model) (text : string) :
  Update run m (lyricsMsg text)
  = mkStep (setSongData (setLyrics text (songData m)) (setFetching false m))
      [] [].
Proof. reflexivity. Qed.

Lemma update_tick_failed (run : option string) (m : model) (e : error) :
  getSongInfo run = Err e ->
  Update run m tickMsg = mkStep (setLastError (Some e) m) [Tick] [metadataArgs].
Proof. intros H. cbn [Update]. now rewrite H. Qed.

(** The tick that starts a fetch: a new query and no fetch under way. *)
Lemma update_tick_new (run : option string) (m : model) (d : SongData) :
  getSongInfo run = Ok d ->
  songOf d <> lastSong m ->
  fetchingLyrics m = false ->
  Update run m tickMsg
  = mkStep (setSongData d (setFetching true (setLastSong (songOf d) m)))
      [Tick; FetchLyrics (songOf d)] [metadataArgs].
Proof.
  intros H N F. cbn [Update]. rewrite H. cbn zeta.
  apply String.eqb_neq in N. now rewrite N, F.
Qed.

(** Every other successful tick: the status is refreshed, the error slot
    emptied, nothing else touched and no fetch started. *)
Lemma update_tick_known (run : option string) (m : model) (d : SongData) :
  getSongInfo run = Ok d ->
  songOf d = lastSong m \/ fetchingLyrics m = true ->
  Update run m tickMsg
  = mkStep
      (setLastError None (setSongData (setStatus (Status d) (songData m)) m))
      [Tick] [metadataArgs].
Proof.
  intros H C. cbn [Update]. rewrite H. cbn zeta.
  destruct C as [E|F].
  - rewrite E, String.eqb_refl. reflexivity.
  - rewrite F, andb_false_r. reflexivity.
Qed.

(** The tick handler asks [fetchingLyrics] before it starts a fetch. *)
Lemma tick_fetch_guard (run : option string) (m : model) (song : string) :
  In (FetchLyrics song) (cmd (Update run m tickMsg)) ->
  fetchingLyrics m = false.
Proof.
  cbn [Update]. destruct (getSongInfo run) as [d|e].
  - cbn zeta. destruct (fetchingLyrics m); [|reflexivity].
    rewrite andb_false_r. cbn. intros [H|[]]. discriminate.
  - cbn. intros [H|[]]. discriminate.
Qed.

(** While a fetch is under way no message but its completion changes the
    query last fetched for, or the flag. *)
Lemma fetching_kept (run : option string) (m : model) (msg : Msg) :
  isLyricsMsg msg = false ->
  fetchingLyrics m = true ->
  lastSong (st (Update run m msg)) = lastSong m
  /\ fetchingLyrics (st (Update run m msg)) = true.
Proof.
  intros L F. destruct msg as [key|w h|text| |]; try discriminate.
  - cbn [Update].
    repeat match goal with
           | |- context [if ?b then _ else _] => destruct b
           end; cbn; auto.
  - cbn; auto.
  - cbn [Update]. destruct (getSongInfo run) as [d|e]; [|cbn; auto].
    cbn zeta. rewrite F, andb_false_r. cbn; auto.
  - cbn; auto.
Qed.

Lemma feed_fetching_kept (ins : list (option string * Msg)) (m : model) :
  Forall (fun i => isLyricsMsg (snd i) = false) ins ->
  fetchingLyrics m = true ->
  lastSong (feed m ins) = lastSong m
  /\ fetchingLyrics (feed m ins) = true.
Proof.
  intros H. revert m. induction H as [|[run msg] ins Hi _ IH]; intros m F.
  - now split.
  - destruct (fetching_kept run m msg Hi F) as [E1 E2].
    cbn [feed fold_left fst snd]. destruct (IH _ E2) as [E3 E4].
    unfold feed in *. now rewrite E3, E4, E1.
Qed.

Lemma quiet_kept (run : option string) (m : model) (msg : Msg) :
  quiet msg = true ->
  lastSong (st (Update run m msg)) = lastSong m
  /\ fetchingLyrics (st (Update run m msg)) = fetchingLyrics m.
Proof.
  destruct msg as [key|w h|text| |]; try discriminate; try (cbn; auto; fail).
  cbn [quiet Update]. intros Q. apply negb_true_iff in Q. rewrite Q.
  repeat match goal with
         | |- context [if ?b then _ else _] => destruct b
         end; cbn; auto.
Qed.

Lemma feed_quiet_kept (ins : list (option string * Msg)) (m : model) :
  Forall (fun i => quiet (snd i) = true) ins ->
  lastSong (feed m ins) = lastSong m
  /\ fetchingLyrics (feed m ins) = fetchingLyrics m.
Proof.
  intros H. revert m. induction H as [|[run msg] ins Hi _ IH]; intros m.
  - now split.
  - destruct (quiet_kept run m msg Hi) as [E1 E2].
    cbn [feed fold_left fst snd].
    destruct (IH (st (Update run m msg))) as [E3 E4].
    unfold feed in *. now rewrite E3, E4, E1, E2.
Qed.

Lemma calm_kept (run : option string) (m : model) (msg : Msg) :
  calm msg = true ->
  lastSong (st (Update run m msg)) = lastSong m
  /\ (fetchingLyrics m = false ->
      fetchingLyrics (st (Update run m msg)) = false).
Proof.
  destruct msg as [key|w h|text| |]; try discriminate; try (cbn; auto; fail).
  cbn [calm Update]. intros Q. apply negb_true_iff in Q. rewrite Q.
  repeat match goal with
         | |- context [if ?b then _ else _] => destruct b
         end; cbn; auto.
Qed.

Lemma feed_calm_kept (ins : list (option string * Msg)) (m : model) :
  Forall (fun i => calm (snd i) = true) ins ->
  lastSong (feed m ins) = lastSong m
  /\ (fetchingLyrics m = false -> fetchingLyrics (feed m ins) = false).
Proof.
  intros H. revert m. induction H as [|[run msg] ins Hi _ IH]; intros m.
  - now split.
  - destruct (calm_kept run m msg Hi) as [E1 E2].
    cbn [feed fold_left fst snd].
    destruct (IH (st (Update run m msg))) as [E3 E4].
    unfold feed in *. rewrite E3, E1. split; auto.
Qed.

End Handlers.

(** ** The claims about the engine *)

Section Engine.

(** C1, as the code has it: the completion message is the fetched text and
    nothing else, so whichever song the returning fetch was started for, its
    text replaces the lyrics and the flag is lowered; nothing else of the
    model changes and no command is issued. *)
Theorem fetch_completion_always_applied
    (p : Program) (i : nat) (get : Network) (song : string) :
  running p = true ->
  nth_error (pending p) i = Some song ->
  mdl (step p (Done i get))
  = setSongData (setLyrics (fetchLyrics get song) (songData (mdl p)))
      (setFetching false (mdl p))
  /\ Lyrics (songData (mdl (step p (Done i get)))) = fetchLyrics get song
  /\ fetchingLyrics (mdl (step p (Done i get))) = false
  /\ lastSong (mdl (step p (Done i get))) = lastSong (mdl p)
  /\ pending (step p (Done i get)) = dropNth i (pending p).
Proof.
  intros R H. unfold step. rewrite R, H. unfold deliver.
  rewrite update_lyrics. cbn [st cmd mdl pending fetchesOf].
  rewrite app_nil_r. repeat split.
Qed.

Lemma fetch_completion_always_applied_witness :
  mdl (step staleProgram (Done 0 demoNet))
  = setSongData
      (setLyrics (fetchLyrics demoNet "Artist X Song A")
         (songData (mdl staleProgram)))
      (setFetching false (mdl staleProgram))
  /\ Lyrics (songData (mdl (step staleProgram (Done 0 demoNet))))
     = fetchLyrics demoNet "Artist X Song A"
  /\ fetchingLyrics (mdl (step staleProgram (Done 0 demoNet))) = false
  /\ lastSong (mdl (step staleProgram (Done 0 demoNet)))
     = lastSong (mdl staleProgram)
  /\ pending (step staleProgram (Done 0 demoNet))
     = dropNth 0 (pending staleProgram).
Proof.
  apply (fetch_completion_always_applied staleProgram 0 demoNet
           "Artist X Song A"); reflexivity.
Defined.

(** C1, as the spec words it, fails in a state the program reaches: the
    fetch that returns was started for song A, the model is on song B, and
    the lyrics are overwritten with those of song A. *)
Lemma stale_completion_overwrites_lyrics :
  reachable staleProgram
  /\ nth_error (pending staleProgram) 0 = Some "Artist X Song A"
  /\ lastSong (mdl staleProgram) = "Artist Y Song B"
  /\ shownSong (mdl staleProgram) = "Artist Y Song B"
  /\ Lyrics (songData (mdl staleProgram)) = ""
  /\ Lyrics (songData (mdl (step staleProgram (Done 0 demoNet))))
     <> Lyrics (songData (mdl staleProgram)).
Proof.
  split; [now eexists; eexists|].
  repeat split; try reflexivity. vm_compute. discriminate.
Qed.

(** Without the refresh key the bookkeeping holds: ticks and completions
    alone never have two fetches in flight. *)
Lemma step_oneFetch (p : Program) (e : Event) :
  isRefresh e = false -> oneFetch p -> oneFetch (step p e).
Proof.
  intros Hr [Hl Hf]. unfold step. destruct (running p); [|now split].
  destruct e as [key|w h|run|i get|]; unfold deliver.
  - cbn [isRefresh] in Hr. cbn [Update]. rewrite Hr.
    repeat match goal with
           | |- context [if ?b then _ else _] => destruct b
           end; cbn [st cmd fetchesOf mdl pending]; rewrite app_nil_r;
      now split.
  - cbn [Update st cmd fetchesOf mdl pending]. rewrite app_nil_r. now split.
  - cbn [Update]. destruct (getSongInfo run) as [d|err].
    + cbn zeta. destruct (fetchingLyrics (mdl p)) eqn:F.
      * rewrite andb_false_r. cbn [st cmd fetchesOf mdl pending].
        rewrite app_nil_r. split; [exact Hl | intros _; exact F].
      * destruct (pending p) as [|x l] eqn:P;
          [|now specialize (Hf ltac:(discriminate))].
        destruct (negb (songOf d =? lastSong (mdl p)));
          cbn [andb negb st cmd fetchesOf mdl pending app List.length];
          (split; cbn; [lia | try reflexivity; intros H; now elim H]).
    + cbn [st cmd fetchesOf mdl pending]. rewrite app_nil_r. now split.
  - destruct (nth_error (pending p) i) as [song|] eqn:N; [|now split].
    cbn [Update st cmd fetchesOf mdl pending]. rewrite app_nil_r.
    destruct (pending p) as [|x [|y l]]; cbn [List.length] in Hl; try lia.
    + destruct i; discriminate.
    + destruct i as [|i]; [|destruct i; discriminate].
      cbn [dropNth]. split; [cbn; lia | intros H; now elim H].
  - cbn [Update st cmd fetchesOf mdl pending]. rewrite app_nil_r. now split.
Qed.

Lemma no_refresh_one_fetch (colorFlag : string) (es : list Event) :
  Forall (fun e => isRefresh e = false) es ->
  oneFetch (runEvents (start colorFlag) es).
Proof.
  intros H. unfold runEvents.
  assert (I : oneFetch (start colorFlag))
    by (split; [cbn; lia | intros N; now elim N]).
  revert I. generalize (start colorFlag).
  induction H as [|e es He _ IH]; intros p I; [exact I|].
  cbn [fold_left]. apply IH. now apply step_oneFetch.
Qed.

(** C3: the refresh key pressed while the fetch a tick started is still
    under way starts a second fetch; two are then in flight. *)
Theorem refresh_starts_second_fetch :
  reachable fetchingProgram
  /\ pending fetchingProgram = ["Artist X Song A"]
  /\ fetchingLyrics (mdl fetchingProgram) = true
  /\ cmd (Update None (mdl fetchingProgram) (KeyMsg "r"))
     = [FetchLyrics "Artist X Song A"]
  /\ reachable (step fetchingProgram (Key "r"))
  /\ pending (step fetchingProgram (Key "r"))
     = ["Artist X Song A"; "Artist X Song A"].
Proof.
  repeat split; try reflexivity.
  - now exists "2", [Poll (Some "Song A|Artist X|Playing")].
  - now exists "2", [Poll (Some "Song A|Artist X|Playing"); Key "r"].
Qed.

(** C5, as the code has it: with a fetch under way, a successful tick
    refreshes the status and empties the error slot; the query last fetched
    for, the title and the artist shown stay those of the old track, and no
    fetch is started. *)
Theorem tick_while_fetching (run : option string) (m : model) (d : SongData) :
  fetchingLyrics m = true ->
  getSongInfo run = Ok d ->
  st (Update run m tickMsg)
  = setLastError None (setSongData (setStatus (Status d) (songData m)) m)
  /\ lastSong (st (Update run m tickMsg)) = lastSong m
  /\ shownSong (st (Update run m tickMsg)) = shownSong m
  /\ Status (songData (st (Update run m tickMsg))) = Status d
  /\ cmd (Update run m tickMsg) = [Tick]
  /\ fetchesOf (cmd (Update run m tickMsg)) = [].
Proof.
  intros F H. rewrite (update_tick_known run m d H (or_intror F)).
  repeat split.
Qed.

Lemma tick_while_fetching_witness :
  st (Update (Some "Song B|Artist Y|Paused") playingA tickMsg)
  = setLastError None
      (setSongData (setStatus "Paused" (songData playingA)) playingA)
  /\ lastSong (st (Update (Some "Song B|Artist Y|Paused") playingA tickMsg))
     = lastSong playingA
  /\ shownSong (st (Update (Some "Song B|Artist Y|Paused") playingA tickMsg))
     = shownSong playingA
  /\ Status (songData
               (st (Update (Some "Song B|Artist Y|Paused") playingA tickMsg)))
     = "Paused"
  /\ cmd (Update (Some "Song B|Artist Y|Paused") playingA tickMsg) = [Tick]
  /\ fetchesOf (cmd (Update (Some "Song B|Artist Y|Paused") playingA tickMsg))
     = [].
Proof.
  apply (tick_while_fetching (Some "Song B|Artist Y|Paused") playingA
           (mkSongData "Paused" "Song B" "Artist Y" "")); reflexivity.
Defined.

(** C5, as the spec words it, fails: the fetch for song A is under way, the
    probe reports song B, and the model stays on song A. *)
Lemma tick_while_fetching_keeps_old_track :
  fetchingLyrics playingA = true
  /\ getSongInfo (Some "Song B|Artist Y|Paused")
     = Ok (mkSongData "Paused" "Song B" "Artist Y" "")
  /\ songOf (mkSongData "Paused" "Song B" "Artist Y" "") <> lastSong playingA
  /\ lastSong (st (Update (Some "Song B|Artist Y|Paused") playingA tickMsg))
     <> "Artist Y Song B"
  /\ Title (songData
              (st (Update (Some "Song B|Artist Y|Paused") playingA tickMsg)))
     = "Song A"
  /\ Artist (songData
               (st (Update (Some "Song B|Artist Y|Paused") playingA tickMsg)))
     = "Artist X".
Proof. repeat split; try reflexivity; vm_compute; discriminate. Qed.

(** C6: a probe error is recorded, then the probe succeeds with a track not
    seen before; the tick that starts the fetch leaves the error in place,
    and only the tick after it empties the slot. *)
Theorem new_track_tick_keeps_error :
  lastError failedModel = Some "can't get metadata"
  /\ getSongInfo (Some "Song A|Artist X|Playing")
     = Ok (mkSongData "Playing" "Song A" "Artist X" "")
  /\ cmd (Update (Some "Song A|Artist X|Playing") failedModel tickMsg)
     = [Tick; FetchLyrics "Artist X Song A"]
  /\ lastError
       (st (Update (Some "Song A|Artist X|Playing") failedModel tickMsg))
     = Some "can't get metadata"
  /\ lastError
       (st (Update (Some "Song A|Artist X|Playing")
              (st (Update (Some "Song A|Artist X|Playing") failedModel tickMsg))
              tickMsg))
     = None.
Proof. repeat split. Qed.

Lemma escapeSpaces_ReplaceAll (s : string) :
  strings.ReplaceAll s " " "%20" = escapeSpaces s.
Proof.
  unfold strings.ReplaceAll. induction s as [|c s IH]; [reflexivity|].
  cbn [escapeSpaces]. destruct (Ascii.eqb_spec c " ") as [->|N].
  - change (String " " s) with (" " ++ s).
    rewrite replaceFrom_hit by discriminate. now rewrite IH.
  - rewrite replaceFrom_miss.
    + now rewrite IH.
    + rewrite prefix_cons. apply andb_false_iff. left.
      apply Ascii.eqb_neq. congruence.
Qed.

(** C8, as the code has it: every fetch [Update] starts is for the query
    artist, one space, title -- of the probed track on a tick, of the track
    shown on the refresh key -- and the search URL is the endpoint followed
    by that query with each space replaced by [%20]; no other byte is
    escaped. *)
Theorem search_url_of_started_fetch
    (run : option string) (m : model) (msg : Msg) (song : string) :
  In (FetchLyrics song) (cmd (Update run m msg)) ->
  (exists artist title,
     song = artist ++ " " ++ title
     /\ ((msg = tickMsg
          /\ exists d,
               getSongInfo run = Ok d /\ artist = Artist d /\ title = Title d)
         \/ (msg = KeyMsg "r"
             /\ artist = Artist (songData m) /\ title = Title (songData m))))
  /\ searchURL song = "https://genius.com/search?q=" ++ escapeSpaces song
  /\ Contains (escapeSpaces song) " " = false.
Proof.
  intros H. split; [|split].
  - destruct msg as [key|w h|text| |]; cbn [Update] in H;
      try (cbn in H; tauto).
    + repeat match type of H with
             | context [if ?b then _ else _] => destruct b eqn:?
             end; cbn in H; try tauto;
        try (destruct H as [H|[]]; discriminate).
      destruct H as [H|[]]. injection H as <-.
      exists (Artist (songData m)), (Title (songData m)).
      split; [reflexivity|]. right.
      match goal with
      | E : (key =? "r") = true |- _ => apply String.eqb_eq in E; subst key
      end.
      auto.
    + cbn [Update]. destruct (getSongInfo run) as [d|e] eqn:G.
      * cbn zeta in *.
        destruct (negb (songOf d =? lastSong m) && negb (fetchingLyrics m));
          cbn in H.
        -- destruct H as [H|[H|[]]]; [discriminate|]. injection H as <-.
           exists (Artist d), (Title d). split; [reflexivity|]. left.
           split; [reflexivity|]. now exists d.
        -- destruct H as [H|[]]. discriminate.
      * cbn in H. destruct H as [H|[]]. discriminate.
  - unfold searchURL. now rewrite escapeSpaces_ReplaceAll.
  - clear H. induction song as [|c s IH]; [reflexivity|].
    cbn [escapeSpaces]. destruct (Ascii.eqb_spec c " ") as [->|N].
    + exact IH.
    + cbn [append]. rewrite Contains_byte_cons, IH.
      rewrite Ascii.eqb_sym. apply Ascii.eqb_neq in N. now rewrite N.
Qed.

Lemma search_url_of_started_fetch_witness :
  (exists artist title,
     "Artist X Song A" = artist ++ " " ++ title
     /\ ((tickMsg = tickMsg
          /\ exists d,
               getSongInfo (Some "Song A|Artist X|Playing") = Ok d
               /\ artist = Artist d /\ title = Title d)
         \/ (tickMsg = KeyMsg "r"
             /\ artist = Artist (songData (initialModel "2"))
             /\ title = Title (songData (initialModel "2")))))
  /\ searchURL "Artist X Song A"
     = "https://genius.com/search?q=" ++ escapeSpaces "Artist X Song A"
  /\ Contains (escapeSpaces "Artist X Song A") " " = false.
Proof.
  apply (search_url_of_started_fetch (Some "Song A|Artist X|Playing")
           (initialModel "2") tickMsg "Artist X Song A").
  right. left. reflexivity.
Defined.

(** C8, as the spec words it, fails on a query with a reserved byte: the
    ampersand reaches the URL as it is, where URL-encoding writes [%26];
    and a query that holds the bytes [%20] gets the URL of the query that
    holds a space there, so the query cannot be read back from the URL. *)
Lemma search_url_not_url_encoded :
  searchURL (songOf (mkSongData "Playing" "Cecilia" "Simon & Garfunkel" ""))
  <> "https://genius.com/search?q="
     ++ percentEncode
          (songOf (mkSongData "Playing" "Cecilia" "Simon & Garfunkel" ""))
  /\ searchURL (songOf (mkSongData "Playing" "Cecilia" "Simon & Garfunkel" ""))
     = "https://genius.com/search?q=Simon%20&%20Garfunkel%20Cecilia"
  /\ percentEncode
       (songOf (mkSongData "Playing" "Cecilia" "Simon & Garfunkel" ""))
     = "Simon%20%26%20Garfunkel%20Cecilia"
  /\ searchURL "a b" = searchURL "a%20b".
Proof. repeat split. vm_compute. discriminate. Qed.

(** C10, as the code has it: a tick that sees a new track while a fetch is
    under way leaves the query last fetched for as it was, and so does
    every message up to the completion; once the completion is handled,
    the next tick that still reports the new track starts the fetch for
    it, provided the refresh key is not pressed in between (other keys,
    resizes and further completions may come). *)
Theorem track_change_during_fetch_is_fetched_later
    (m : model) (run run' : option string) (d d' : SongData)
    (during after : list (option string * Msg)) (text : string) :
  fetchingLyrics m = true ->
  getSongInfo run = Ok d ->
  songOf d <> lastSong m ->
  Forall (fun i => isLyricsMsg (snd i) = false) during ->
  Forall (fun i => calm (snd i) = true) after ->
  getSongInfo run' = Ok d' ->
  Artist d' = Artist d ->
  Title d' = Title d ->
  lastSong (st (Update run m tickMsg)) = lastSong m
  /\ fetchesOf (cmd (Update run m tickMsg)) = []
  /\ lastSong (feed (st (Update run m tickMsg)) during) = lastSong m
  /\ cmd (Update run'
            (feed
               (st (Update None (feed (st (Update run m tickMsg)) during)
                      (lyricsMsg text)))
               after)
            tickMsg)
     = [Tick; FetchLyrics (songOf d)]
  /\ lastSong
       (st (Update run'
              (feed
                 (st (Update None (feed (st (Update run m tickMsg)) during)
                        (lyricsMsg text)))
                 after)
              tickMsg))
     = songOf d.
Proof.
  intros F H N Hd Ha H' EA ET.
  assert (ES : songOf d' = songOf d) by (unfold songOf; now rewrite EA, ET).
  pose proof (update_tick_known run m d H (or_intror F)) as E0.
  assert (L0 : lastSong (st (Update run m tickMsg)) = lastSong m)
    by now rewrite E0.
  assert (C0 : fetchesOf (cmd (Update run m tickMsg)) = [])
    by now rewrite E0.
  assert (F0 : fetchingLyrics (st (Update run m tickMsg)) = true)
    by (rewrite E0; exact F).
  destruct (feed_fetching_kept during _ Hd F0) as [L1 F1].
  set (m1 := feed (st (Update run m tickMsg)) during) in *.
  set (m2 := st (Update None m1 (lyricsMsg text))).
  destruct (feed_calm_kept after m2 Ha) as [L2 F2].
  assert (L3 : lastSong (feed m2 after) = lastSong m)
    by (rewrite L2; cbn; congruence).
  assert (F3 : fetchingLyrics (feed m2 after) = false)
    by (apply F2; reflexivity).
  rewrite (update_tick_new run' (feed m2 after) d' H')
    by (congruence || exact F3).
  repeat split; try assumption; try congruence.
  - cbn. now rewrite ES.
Qed.

Lemma track_change_during_fetch_is_fetched_later_witness :
  lastSong (st (Update (Some "Song B|Artist Y|Playing") playingA tickMsg))
  = lastSong playingA
  /\ fetchesOf (cmd (Update (Some "Song B|Artist Y|Playing") playingA tickMsg))
     = []
  /\ lastSong
       (feed (st (Update (Some "Song B|Artist Y|Playing") playingA tickMsg))
          [(None, tickMsg); (None, KeyMsg "r")])
     = lastSong playingA
  /\ cmd (Update (Some "Song B|Artist Y|Paused")
            (feed
               (st (Update None
                      (feed
                         (st (Update (Some "Song B|Artist Y|Playing") playingA
                                tickMsg))
                         [(None, tickMsg); (None, KeyMsg "r")])
                      (lyricsMsg "la la")))
               [(None, WindowSizeMsg 80 24); (None, KeyMsg "n")])
            tickMsg)
     = [Tick; FetchLyrics "Artist Y Song B"]
  /\ lastSong
       (st (Update (Some "Song B|Artist Y|Paused")
              (feed
                 (st (Update None
                        (feed
                           (st (Update (Some "Song B|Artist Y|Playing")
                                  playingA tickMsg))
                           [(None, tickMsg); (None, KeyMsg "r")])
                        (lyricsMsg "la la")))
                 [(None, WindowSizeMsg 80 24); (None, KeyMsg "n")])
              tickMsg))
     = "Artist Y Song B".
Proof.
  apply (track_change_during_fetch_is_fetched_later playingA
           (Some "Song B|Artist Y|Playing") (Some "Song B|Artist Y|Paused")
           (mkSongData "Playing" "Song B" "Artist Y" "")
           (mkSongData "Paused" "Song B" "Artist Y" "")
           [(None, tickMsg); (None, KeyMsg "r")]
           [(None, WindowSizeMsg 80 24); (None, KeyMsg "n")] "la la");
    try reflexivity.
  - vm_compute. discriminate.
  - repeat constructor.
  - repeat constructor.
Defined.

End Engine.

(** * Further properties of the code *)

(** ** More on the clean-up of lyrics *)

Section CleanUp.

Lemma ReplaceAll_byte (d c : ascii) (s new : string) :
  strings.ReplaceAll (String c s) (String d "") new
  = if Ascii.eqb d c
    then new ++ strings.ReplaceAll s (String d "") new
    else String c (strings.ReplaceAll s (String d "") new).
Proof.
  unfold strings.ReplaceAll. destruct (Ascii.eqb_spec d c) as [->|N].
  - change (String c s) with (String c "" ++ s).
    now rewrite replaceFrom_hit by discriminate.
  - apply replaceFrom_miss. rewrite prefix_cons.
    apply andb_false_iff. left. now apply Ascii.eqb_neq.
Qed.

Lemma Contains_absent_prefix (s sub : string) :
  Contains s sub = false -> prefix sub s = false.
Proof. destruct s; cbn [Contains]; intros H; now apply orb_false_iff in H. Qed.

(** X1: text with no square bracket and no run of three newlines comes out
    of the clean-up as it went in. *)
Theorem normalize_clean_text_unchanged (x : string) :
  Contains x "[" = false ->
  Contains x "]" = false ->
  Contains x (rep 3) = false ->
  normalize x = x.
Proof.
  intros Ho Hc Hr. unfold normalize.
  rewrite brackets_absent by assumption.
  now apply ReplaceAll_absent.
Qed.

Lemma normalize_clean_text_unchanged_witness :
  normalize ("first line" ++ rep 1 ++ "second line" ++ rep 2 ++ "third")
  = "first line" ++ rep 1 ++ "second line" ++ rep 2 ++ "third".
Proof.
  apply normalize_clean_text_unchanged; reflexivity.
Defined.

Lemma dropNewlines_app (a b : string) :
  dropNewlines (a ++ b) = dropNewlines a ++ dropNewlines b.
Proof.
  induction a as [|c a IH]; [reflexivity|].
  cbn [append dropNewlines]. destruct (Ascii.eqb c nl); [exact IH|].
  cbn [append]. now rewrite IH.
Qed.

Lemma dropNewlines_rep (n : nat) : dropNewlines (rep n) = "".
Proof. induction n as [|n IH]; [reflexivity | exact IH]. Qed.

Lemma dropNewlines_ReplaceAll (d : ascii) (new s : string) :
  d <> nl ->
  dropNewlines new = String d "" ->
  dropNewlines (strings.ReplaceAll s (String d "") new) = dropNewlines s.
Proof.
  intros Hd Hn. induction s as [|c s IH]; [reflexivity|].
  rewrite ReplaceAll_byte. destruct (Ascii.eqb_spec d c) as [<-|N].
  - rewrite dropNewlines_app, Hn, IH. cbn [append dropNewlines].
    destruct (Ascii.eqb d nl) eqn:E; [|reflexivity].
    apply Ascii.eqb_eq in E. now elim Hd.
  - cbn [dropNewlines]. now rewrite IH.
Qed.

Lemma dropNewlines_collapse (s : string) :
  dropNewlines (collapse s) = dropNewlines s.
Proof.
  pattern s. apply run_ind; clear s.
  - reflexivity.
  - intros c t N IH. rewrite collapse_other by exact N.
    cbn [dropNewlines]. now rewrite IH.
  - intros n t _ Ht IH. rewrite collapse_run by exact Ht.
    now rewrite !dropNewlines_app, !dropNewlines_rep, IH.
Qed.

(** X2: the clean-up only adds and removes newlines; every other byte of
    the text is kept, in order. *)
Theorem normalize_keeps_other_bytes (x : string) :
  dropNewlines (normalize x) = dropNewlines x.
Proof.
  unfold normalize, brackets.
  rewrite dropNewlines_collapse.
  rewrite dropNewlines_ReplaceAll; [|discriminate|reflexivity].
  rewrite dropNewlines_ReplaceAll; [reflexivity|discriminate|reflexivity].
Qed.

Lemma opensLine_weaken (s : string) :
  opensLine false s = true -> opensLine true s = true.
Proof.
  destruct s as [|c s]; [reflexivity|]. cbn [opensLine].
  destruct (Ascii.eqb c "["); [discriminate | exact (fun H => H)].
Qed.

Lemma opensLine_run (b : bool) (n : nat) (t : string) :
  0 < n -> opensLine b (rep n ++ t) = opensLine true t.
Proof.
  intros Hn. revert b. induction n as [|n IH]; intros b; [lia|].
  cbn [rep append opensLine]. change (Ascii.eqb nl "[") with false.
  rewrite Ascii.eqb_refl. cbn [andb].
  destruct n as [|n]; [reflexivity | apply IH; lia].
Qed.

Lemma opensLine_open (b : bool) (s : string) :
  opensLine b (strings.ReplaceAll s "[" (String nl "[")) = true.
Proof.
  revert b. induction s as [|c s IH]; intros b; [reflexivity|].
  rewrite ReplaceAll_byte. destruct (Ascii.eqb_spec "[" c) as [<-|N].
  - cbn [append opensLine]. change (Ascii.eqb nl nl) with true.
    change (Ascii.eqb nl "[") with false.
    change (Ascii.eqb "[" "[") with true.
    change (Ascii.eqb "[" nl) with false. cbn [andb]. apply IH.
  - cbn [opensLine]. rewrite Ascii.eqb_sym.
    apply Ascii.eqb_neq in N. rewrite N. cbn [andb]. apply IH.
Qed.

Lemma opensLine_close (b : bool) (s : string) :
  opensLine b s = true ->
  opensLine b (strings.ReplaceAll s "]" (String "]" (rep 1))) = true.
Proof.
  revert b. induction s as [|c s IH]; intros b H; [reflexivity|].
  rewrite ReplaceAll_byte. destruct (Ascii.eqb_spec "]" c) as [<-|N].
  - cbn [opensLine] in H. change (Ascii.eqb "]" "[") with false in H.
    change (Ascii.eqb "]" nl) with false in H. cbn [andb] in H.
    cbn [rep append opensLine]. change (Ascii.eqb "]" "[") with false.
    change (Ascii.eqb "]" nl) with false.
    change (Ascii.eqb nl "[") with false.
    change (Ascii.eqb nl nl) with true. cbn [andb].
    apply IH. now apply opensLine_weaken.
  - cbn [opensLine] in *. apply andb_true_iff in H as [H1 H2].
    rewrite H1. cbn [andb]. now apply IH.
Qed.

Lemma opensLine_collapse (s : string) :
  forall b, opensLine b s = true -> opensLine b (collapse s) = true.
Proof.
  pattern s. apply run_ind; clear s.
  - intros b _. reflexivity.
  - intros c t N IH b H. rewrite collapse_other by exact N.
    cbn [opensLine] in *. apply andb_true_iff in H as [H1 H2].
    rewrite H1. cbn [andb]. now apply IH.
  - intros n t Hn Ht IH b H. rewrite opensLine_run in H by exact Hn.
    rewrite collapse_run by exact Ht. rewrite opensLine_run.
    + now apply IH.
    + pose proof (Nat.div_lt n 3 Hn). lia.
Qed.

Lemma closesLine_close (s : string) :
  closesLine (strings.ReplaceAll s "]" (String "]" (rep 1))) = true.
Proof.
  induction s as [|c s IH]; [reflexivity|].
  rewrite ReplaceAll_byte. destruct (Ascii.eqb_spec "]" c) as [<-|N].
  - cbn [rep append closesLine]. change (Ascii.eqb "]" "]") with true.
    change (Ascii.eqb nl "]") with false. cbn [andb].
    unfold HasPrefix at 1. cbn [rep]. rewrite prefix_cons, Ascii.eqb_refl.
    rewrite prefix_nil. exact IH.
  - cbn [closesLine]. rewrite Ascii.eqb_sym.
    apply Ascii.eqb_neq in N. rewrite N. exact IH.
Qed.

Lemma collapse_keeps_lead (t : string) :
  HasPrefix t (rep 1) = true -> HasPrefix (collapse t) (rep 1) = true.
Proof.
  destruct t as [|c t]; [discriminate|]. unfold HasPrefix. cbn [rep].
  rewrite prefix_cons, prefix_nil, andb_true_r. intros E.
  apply Ascii.eqb_eq in E. subst c.
  unfold collapse, strings.ReplaceAll. cbn [rep strings.replaceFrom].
  destruct (prefix _ (String nl t)); cbn [append];
    now rewrite prefix_cons, Ascii.eqb_refl, prefix_nil.
Qed.

Lemma closesLine_run (n : nat) (t : string) :
  closesLine (rep n ++ t) = closesLine t.
Proof. induction n as [|n IH]; [reflexivity | exact IH]. Qed.

Lemma closesLine_collapse (s : string) :
  closesLine s = true -> closesLine (collapse s) = true.
Proof.
  pattern s. apply run_ind; clear s.
  - intros _. reflexivity.
  - intros c t N IH H. rewrite collapse_other by exact N.
    cbn [closesLine] in *. apply andb_true_iff in H as [H1 H2].
    rewrite (IH H2), andb_true_r.
    destruct (Ascii.eqb c "]"); [|reflexivity].
    now apply collapse_keeps_lead.
  - intros n t _ Ht IH H. rewrite closesLine_run in H.
    rewrite collapse_run by exact Ht. rewrite closesLine_run. now apply IH.
Qed.

(** X3: in cleaned-up lyrics every opening bracket stands at the start of
    a line -- the first byte of the text is not one -- and every closing
    bracket at the end of a line. *)
Theorem normalize_markers_on_own_line (x : string) :
  opensLine false (normalize x) = true /\ closesLine (normalize x) = true.
Proof.
  unfold normalize, brackets. split.
  - apply opensLine_collapse, opensLine_close, opensLine_open.
  - apply closesLine_collapse, closesLine_close.
Qed.

Lemma replaceFrom_nonempty (old new : string) (c : ascii) (s : string) :
  new <> "" -> strings.replaceFrom old new 0 (String c s) <> "".
Proof.
  intros Hn. cbn [strings.replaceFrom].
  destruct (prefix old (String c s)); [|discriminate].
  destruct new; [now elim Hn | discriminate].
Qed.

Lemma ReplaceAll_nonempty (s old new : string) :
  new <> "" -> s <> "" -> strings.ReplaceAll s old new <> "".
Proof.
  intros Hn Hs. unfold strings.ReplaceAll. destruct old; [exact Hs|].
  destruct s; [now elim Hs|]. now apply replaceFrom_nonempty.
Qed.

Lemma normalize_nonempty (x : string) : x <> "" -> normalize x <> "".
Proof.
  intros H. unfold normalize, collapse, brackets.
  repeat apply ReplaceAll_nonempty; try discriminate. exact H.
Qed.

(** X4: whatever the network answers, a fetch delivers a non-empty text:
    one of the notices or lyrics of at least one byte. *)
Theorem fetchLyrics_never_empty (get : Network) (song : string) :
  fetchLyrics get song <> "".
Proof.
  unfold fetchLyrics.
  destruct (get (searchURL song)) as [[doc|]|]; try discriminate.
  destruct (hd "" (SearchResultSong doc) =? ""); [discriminate|].
  destruct (get _) as [[page|]|]; try discriminate.
  destruct (writeContainers (Lyrics__Container page)) as [|c l] eqn:E;
    [discriminate|].
  cbn [String.length Nat.eqb]. now apply normalize_nonempty.
Qed.

End CleanUp.

(** ** More on the probe *)

Section ProbeMore.

Lemma prefix_app_r (e a v : string) :
  prefix e a = true -> prefix e (a ++ v) = true.
Proof.
  revert a. induction e as [|x e IH]; intros a H.
  - apply prefix_nil.
  - destruct a as [|c a]; [discriminate|].
    cbn [append]. rewrite prefix_cons in *.
    apply andb_true_iff in H as [H1 H2]. now rewrite H1, IH.
Qed.

Lemma spaceWidth_app (encs : list string) (a v : string) :
  Forall (fun e => e <> "") encs ->
  strings.spaceWidth encs (a ++ v) = 0%nat ->
  strings.spaceWidth encs a = 0%nat.
Proof.
  intros Hne. induction Hne as [|e encs He _ IH]; intros H; [reflexivity|].
  cbn [strings.spaceWidth] in *.
  destruct (prefix e a) eqn:P.
  - rewrite (prefix_app_r _ _ v P) in H. exact H.
  - destruct (prefix e (a ++ v)); [|now apply IH].
    destruct e; [now elim He | discriminate].
Qed.

Lemma spaces_nonempty : Forall (fun e => e <> "") strings.spaces.
Proof. vm_compute. repeat constructor; discriminate. Qed.

Lemma trimFront_fixed (encs : list string) (s : string) :
  strings.spaceWidth encs s = 0%nat -> strings.trimFront encs 0 s = s.
Proof. destruct s; [reflexivity|]. cbn [strings.trimFront]. now intros ->. Qed.

(** What [trimFront] returns is the end of its argument. *)
Lemma trimFront_suffix (encs : list string) (s : string) (skip : nat) :
  exists w, s = w ++ strings.trimFront encs skip s.
Proof.
  revert skip. induction s as [|c s IH]; intros skip.
  - now exists "".
  - cbn [strings.trimFront]. destruct skip as [|k].
    + destruct (strings.spaceWidth encs (String c s)) as [|k].
      * now exists "".
      * destruct (IH k) as [w E]. exists (String c w).
        cbn [append]. now rewrite <- E.
    + destruct (IH k) as [w E]. exists (String c w).
      cbn [append]. now rewrite <- E.
Qed.

Lemma TrimRight_prefix (t : string) :
  exists v, t = strings.TrimRight t ++ v.
Proof.
  unfold strings.TrimRight.
  destruct (trimFront_suffix (map revString strings.spaces) (revString t) 0)
    as [w E].
  exists (revString w).
  rewrite <- revString_append, <- E. now rewrite revString_involutive.
Qed.

Lemma TrimSpace_no_leading_space (s : string) :
  strings.spaceWidth strings.spaces (strings.TrimSpace s) = 0%nat.
Proof.
  unfold strings.TrimSpace.
  destruct (TrimRight_prefix (strings.TrimLeft s)) as [v E].
  apply (spaceWidth_app _ _ v spaces_nonempty).
  rewrite <- E. apply TrimLeft_no_leading_space.
Qed.

(** Trimming what is trimmed changes nothing. *)
Lemma TrimSpace_idempotent (s : string) :
  strings.TrimSpace (strings.TrimSpace s) = strings.TrimSpace s.
Proof.
  unfold strings.TrimSpace at 1. unfold strings.TrimLeft.
  rewrite trimFront_fixed by apply TrimSpace_no_leading_space.
  unfold strings.TrimRight.
  rewrite trimFront_fixed by apply TrimSpace_no_trailing_space.
  apply revString_involutive.
Qed.

Lemma countByte_app (d : ascii) (a b : string) :
  countByte d (a ++ b) = (countByte d a + countByte d b)%nat.
Proof.
  induction a as [|c a IH]; [reflexivity|].
  cbn [append countByte]. rewrite IH. lia.
Qed.

Lemma TrimSpace_keeps_absent (d : ascii) (s : string) :
  countByte d s = 0%nat -> countByte d (strings.TrimSpace s) = 0%nat.
Proof.
  intros H. unfold strings.TrimSpace.
  destruct (trimFront_suffix strings.spaces s 0) as [w E].
  fold (strings.TrimLeft s) in E.
  destruct (TrimRight_prefix (strings.TrimLeft s)) as [v F].
  rewrite E, F, !countByte_app in H. lia.
Qed.

Lemma Split_no_separator (d : ascii) (t : string) :
  countByte d t = 0%nat -> strings.Split t (String d "") = [t].
Proof.
  induction t as [|c t IH]; [reflexivity|]. cbn [countByte].
  rewrite Split_byte_cons, (Ascii.eqb_sym d c).
  destruct (Ascii.eqb c d); [discriminate|]. intros H. now rewrite IH.
Qed.

Lemma Split_at_separator (d : ascii) (t r : string) :
  countByte d t = 0%nat ->
  strings.Split (t ++ String d r) (String d "")
  = t :: strings.Split r (String d "").
Proof.
  induction t as [|c t IH]; cbn [append countByte].
  - intros _. now rewrite Split_byte_cons, Ascii.eqb_refl.
  - rewrite Split_byte_cons, (Ascii.eqb_sym d c).
    destruct (Ascii.eqb c d); [discriminate|]. intros H. now rewrite IH.
Qed.

(** X5: when the trimmed output is a title, an artist and a status with no
    pipe in them, joined by pipes, the probe succeeds with exactly these,
    each trimmed -- empty ones included. *)
Theorem getSongInfo_reads_back (out t a s : string) :
  strings.TrimSpace out = t ++ "|" ++ a ++ "|" ++ s ->
  countByte "|" t = 0%nat ->
  countByte "|" a = 0%nat ->
  countByte "|" s = 0%nat ->
  getSongInfo (Some out)
  = Ok (mkSongData (strings.TrimSpace s) (strings.TrimSpace t)
          (strings.TrimSpace a) "").
Proof.
  intros E Ht Ha Hs. unfold getSongInfo. rewrite E.
  replace (t ++ "|" ++ a ++ "|" ++ s =? "") with false
    by (destruct t; reflexivity).
  change (t ++ "|" ++ a ++ "|" ++ s)
    with (t ++ String "|" (a ++ String "|" s)).
  rewrite Split_at_separator by exact Ht.
  rewrite Split_at_separator by exact Ha.
  now rewrite Split_no_separator by exact Hs.
Qed.

Lemma getSongInfo_reads_back_witness :
  getSongInfo (Some (" Hey Jude | The Beatles|" ++ rep 1))
  = Ok (mkSongData (strings.TrimSpace "") (strings.TrimSpace "Hey Jude ")
          (strings.TrimSpace " The Beatles") "").
Proof.
  apply (getSongInfo_reads_back (" Hey Jude | The Beatles|" ++ rep 1)
           "Hey Jude " " The Beatles" ""); reflexivity.
Defined.

(** X6: the title, artist and status of a successful probe are trimmed
    already and hold no pipe, and its lyrics are empty. *)
Theorem getSongInfo_fields (run : option string) (d : SongData) :
  getSongInfo run = Ok d ->
  (strings.TrimSpace (Title d) = Title d /\ countByte "|" (Title d) = 0%nat)
  /\ (strings.TrimSpace (Artist d) = Artist d
      /\ countByte "|" (Artist d) = 0%nat)
  /\ (strings.TrimSpace (Status d) = Status d
      /\ countByte "|" (Status d) = 0%nat)
  /\ Lyrics d = "".
Proof.
  destruct run as [out|]; [|discriminate]. rewrite getSongInfo_cases.
  destruct (strings.TrimSpace out =? ""); [discriminate|].
  pose proof (Split_fields "|" (strings.TrimSpace out)) as F.
  pose proof (threeFields_some (strings.Split (strings.TrimSpace out) "|"))
    as U.
  destruct (threeFields _) as [[[t a] s]|]; [|discriminate].
  destruct (U t a s) as [U' _]. rewrite (U' eq_refl) in F.
  inversion F as [|? ? Ft F1]; subst. inversion F1 as [|? ? Fa F2]; subst.
  inversion F2 as [|? ? Fs _]; subst.
  intros H. injection H as <-. cbn [Title Artist Status Lyrics].
  repeat split; try apply TrimSpace_idempotent;
    now apply TrimSpace_keeps_absent.
Qed.

Lemma getSongInfo_fields_witness :
  (strings.TrimSpace "Song A" = "Song A" /\ countByte "|" "Song A" = 0%nat)
  /\ (strings.TrimSpace "Artist X" = "Artist X"
      /\ countByte "|" "Artist X" = 0%nat)
  /\ (strings.TrimSpace "Playing" = "Playing"
      /\ countByte "|" "Playing" = 0%nat)
  /\ "" = "".
Proof.
  apply (getSongInfo_fields (Some " Song A | Artist X|Playing ")
           (mkSongData "Playing" "Song A" "Artist X" "")).
  reflexivity.
Defined.

(** X7: the probe sees its output through the trimming only: white space
    around the output never changes the result. *)
Theorem getSongInfo_of_trimmed (out : string) :
  getSongInfo (Some (strings.TrimSpace out)) = getSongInfo (Some out).
Proof. unfold getSongInfo. now rewrite TrimSpace_idempotent. Qed.

End ProbeMore.

(** ** More on the fetch *)

Section FetchMore.

Lemma escapeSpaces_injective (a b : string) :
  countByte "%" a = 0%nat ->
  countByte "%" b = 0%nat ->
  escapeSpaces a = escapeSpaces b ->
  a = b.
Proof.
  revert b. induction a as [|c a IH]; intros [|d b] Ha Hb E.
  - reflexivity.
  - cbn [escapeSpaces] in E. destruct (Ascii.eqb d " "); discriminate.
  - cbn [escapeSpaces] in E. destruct (Ascii.eqb c " "); discriminate.
  - cbn [escapeSpaces countByte] in *.
    destruct (Ascii.eqb_spec c "%") as [->|Nc]; [discriminate|].
    destruct (Ascii.eqb_spec d "%") as [->|Nd]; [discriminate|].
    destruct (Ascii.eqb_spec c " ") as [->|Sc];
      destruct (Ascii.eqb_spec d " ") as [->|Sd]; cbn [append] in E.
    + injection E as E. f_equal. now apply IH.
    + injection E as E1 E2. now elim Nd.
    + injection E as E1 E2. now elim Nc.
    + injection E as -> E. f_equal. now apply IH.
Qed.

Lemma append_cancel (p a b : string) : p ++ a = p ++ b -> a = b.
Proof.
  induction p as [|c p IH]; cbn [append]; intros H; [exact H|].
  injection H as H. now apply IH.
Qed.

(** X8: two queries with no percent sign in them get the same search URL
    only when they are the same query. *)
Theorem searchURL_injective_without_percent (a b : string) :
  countByte "%" a = 0%nat ->
  countByte "%" b = 0%nat ->
  searchURL a = searchURL b ->
  a = b.
Proof.
  intros Ha Hb E. unfold searchURL in E.
  rewrite !escapeSpaces_ReplaceAll in E.
  apply append_cancel in E. now apply escapeSpaces_injective.
Qed.

Lemma searchURL_injective_without_percent_witness :
  "Artist X Song A" = "Artist X Song A".
Proof.
  apply (searchURL_injective_without_percent
           "Artist X Song A" "Artist X Song A"); reflexivity.
Defined.

(** X9: a fetch asks the network for the search URL and, when the search
    gave a link, for the first link; what any other URL would answer has
    no part in the result. *)
Theorem fetchLyrics_two_requests (get get' : Network) (song : string) :
  get (searchURL song) = get' (searchURL song) ->
  (forall doc,
     get (searchURL song) = Some (Some doc) ->
     get (hd "" (SearchResultSong doc)) = get' (hd "" (SearchResultSong doc)))
  ->
  fetchLyrics get song = fetchLyrics get' song.
Proof.
  intros E1 E2. unfold fetchLyrics. rewrite <- E1.
  destruct (get (searchURL song)) as [[doc|]|]; try reflexivity.
  now rewrite <- (E2 doc eq_refl).
Qed.

Lemma fetchLyrics_two_requests_witness :
  fetchLyrics demoNet "Artist X Song A"
  = fetchLyrics
      (fun url => if url =? "https://example.org/" then None else demoNet url)
      "Artist X Song A".
Proof.
  apply fetchLyrics_two_requests; [reflexivity|].
  intros doc H. injection H as <-. reflexivity.
Defined.

End FetchMore.

(** ** More on [Update] and the program around it *)

Section EngineMore.

Ltac split_ifs :=
  repeat match goal with
         | |- context [if ?b then _ else _] => destruct b eqn:?
         end.

(** X10: [tea.Quit] is returned for the key [q] and for nothing else. *)
Theorem quit_only_on_q (run : option string) (m : model) (msg : Msg) :
  In Quit (cmd (Update run m msg)) <-> msg = KeyMsg "q".
Proof.
  split.
  - destruct msg as [key|w h|text| |]; cbn [Update].
    + destruct (key =? "q") eqn:Q;
        [apply String.eqb_eq in Q; now subst|].
      split_ifs; cbn; intros H; try tauto; destruct H as [H|[]]; discriminate.
    + cbn; tauto.
    + cbn; tauto.
    + destruct (getSongInfo run); cbn zeta; split_ifs; cbn;
        intros H; repeat (destruct H as [H|H]; try discriminate); tauto.
    + cbn; tauto.
  - intros ->. cbn. now left.
Qed.

(** X11: the handler of a tick schedules exactly one next tick, whatever
    the probe gave and whether a fetch starts; no other message schedules
    one.  The polling neither stops nor multiplies. *)
Theorem tick_rescheduled_once (run : option string) (m : model) (msg : Msg) :
  ticksOf (cmd (Update run m msg))
  = match msg with tickMsg => 1%nat | _ => 0%nat end.
Proof.
  destruct msg as [key|w h|text| |]; cbn [Update]; try reflexivity.
  - split_ifs; reflexivity.
  - destruct (getSongInfo run); cbn zeta; split_ifs; reflexivity.
Qed.

Lemma update_color (run : option string) (m : model) (msg : Msg) :
  color (st (Update run m msg)) = color m.
Proof.
  destruct msg as [key|w h|text| |]; cbn [Update]; try reflexivity.
  - split_ifs; reflexivity.
  - destruct (getSongInfo run); cbn zeta; split_ifs; reflexivity.
Qed.

Lemma step_color (p : Program) (e : Event) :
  color (mdl (step p e)) = color (mdl p).
Proof.
  unfold step. destruct (running p); [|reflexivity].
  destruct e as [key|w h|run|i get|]; unfold deliver; cbn [mdl];
    try apply update_color.
  destruct (nth_error (pending p) i); [|reflexivity].
  cbn [mdl]. apply update_color.
Qed.

(** X12: the colour given at start is the colour of the model ever after,
    whatever happens to the program. *)
Theorem color_never_changes (colorFlag : string) (es : list Event) :
  color (mdl (runEvents (start colorFlag) es)) = colorFlag.
Proof.
  unfold runEvents.
  change colorFlag with (color (mdl (start colorFlag))) at 2.
  generalize (start colorFlag).
  induction es as [|e es IH]; intros p; [reflexivity|].
  cbn [fold_left]. rewrite IH. apply step_color.
Qed.

Lemma feed_app (m : model) (a b : list (option string * Msg)) :
  feed m (a ++ b)%list = feed (feed m a) b.
Proof. unfold feed. apply fold_left_app. Qed.

Lemma feed_failed_polls (runs : list (option string)) (m : model) :
  Forall (fun run => probeFails run = true) runs ->
  songData (feed m (polls runs)) = songData m
  /\ lastSong (feed m (polls runs)) = lastSong m
  /\ fetchingLyrics (feed m (polls runs)) = fetchingLyrics m
  /\ color (feed m (polls runs)) = color m
  /\ width (feed m (polls runs)) = width m
  /\ height (feed m (polls runs)) = height m.
Proof.
  intros H. revert m. induction H as [|run runs Hr _ IH]; intros m.
  - repeat split.
  - cbn [polls map feed fold_left fst snd].
    specialize (IH (st (Update run m tickMsg))).
    unfold polls, feed in IH.
    destruct IH as (I1 & I2 & I3 & I4 & I5 & I6).
    rewrite I1, I2, I3, I4, I5, I6.
    unfold probeFails in Hr. cbn [Update].
    destruct (getSongInfo run); [discriminate|]. repeat split.
Qed.

(** X13: polls that fail, however many in a row, leave the song, its
    lyrics, the query last fetched for and the flag as they were; the
    model differs from the one before them in the error alone, which is
    that of the last poll, and the view shows that error and nothing
    else. *)
Theorem failed_polls_keep_track
    (lip : Lipgloss) (m : model) (runs : list (option string))
    (run : option string) (err : error) :
  Forall (fun r => probeFails r = true) runs ->
  getSongInfo run = Err err ->
  feed m (polls (runs ++ [run])) = setLastError (Some err) m
  /\ content lip (feed m (polls (runs ++ [run])))
     = errorStyle lip ("Error: " ++ err).
Proof.
  intros H E.
  assert (G : feed m (polls (runs ++ [run])) = setLastError (Some err) m).
  { unfold polls. rewrite map_app, feed_app.
    fold (polls runs). cbn [map feed fold_left fst snd].
    rewrite (update_tick_failed _ _ _ E). cbn [st].
    destruct (feed_failed_polls runs m H) as (I1 & I2 & I3 & I4 & I5 & I6).
    destruct (feed m (polls runs)) as [sd c w h le ls fl].
    destruct m as [sd' c' w' h' le' ls' fl'].
    cbn in *. now subst. }
  split; [exact G|]. now rewrite G.
Qed.

Lemma failed_polls_keep_track_witness :
  feed playingA (polls ([None; Some "   "] ++ [Some "Song A|Playing"]))
  = setLastError (Some "unexpected metadata format") playingA
  /\ content plain
       (feed playingA (polls ([None; Some "   "] ++ [Some "Song A|Playing"])))
     = errorStyle plain ("Error: " ++ "unexpected metadata format").
Proof.
  apply (failed_polls_keep_track plain playingA [None; Some "   "]
           (Some "Song A|Playing") "unexpected metadata format");
    [repeat constructor | reflexivity].
Defined.

Lemma runEvents_invariant (P : Program -> Prop) (Q : Event -> Prop) :
  (forall p e, Q e -> P p -> P (step p e)) ->
  forall es p, Forall Q es -> P p -> P (runEvents p es).
Proof.
  intros Hstep es. unfold runEvents.
  induction es as [|e es IH]; intros p HQ HP; [exact HP|].
  inversion HQ; subst. cbn [fold_left]. apply IH; [assumption|].
  now apply Hstep.
Qed.

Lemma app_not_nil {A : Type} (l : list A) (x : A) : (l ++ [x])%list <> [].
Proof. destruct l; discriminate. Qed.

Lemma step_flagHasFetch (p : Program) (e : Event) :
  flagHasFetch p -> flagHasFetch (step p e).
Proof.
  unfold flagHasFetch. intros I. unfold step.
  destruct (running p); [|exact I].
  destruct e as [key|w h|run|i get|]; unfold deliver.
  - cbn [Update]. split_ifs;
      cbn [st cmd fetchesOf mdl pending fetchingLyrics setFetching];
      rewrite ?app_nil_r; try exact I.
    intros _. apply app_not_nil.
  - cbn [Update st cmd fetchesOf mdl pending]. rewrite app_nil_r. exact I.
  - cbn [Update]. destruct (getSongInfo run) as [d|err]; cbn zeta;
      split_ifs; cbn [st cmd fetchesOf mdl pending]; rewrite ?app_nil_r;
      try exact I.
    intros _. apply app_not_nil.
  - destruct (nth_error (pending p) i); [|exact I].
    cbn [Update st cmd fetchesOf mdl pending]. discriminate.
  - cbn [Update st cmd fetchesOf mdl pending]. rewrite app_nil_r. exact I.
Qed.

(** X14: in every state the program reaches, refresh key or not, the flag
    is up only while a started fetch has not returned yet: "Fetching
    lyrics..." is never shown with nothing left to wait for. *)
Theorem flag_up_means_fetch_pending (p : Program) :
  reachable p -> fetchingLyrics (mdl p) = true -> pending p <> [].
Proof.
  intros (c & es & ->).
  apply (runEvents_invariant flagHasFetch (fun _ => True)).
  - intros q e _. apply step_flagHasFetch.
  - now apply Forall_forall.
  - discriminate.
Qed.

Lemma flag_up_means_fetch_pending_witness : pending fetchingProgram <> [].
Proof.
  apply flag_up_means_fetch_pending; [|reflexivity].
  now exists "2", [Poll (Some "Song A|Artist X|Playing")].
Defined.

(** X15: as long as the refresh key is not pressed, at most one fetch is
    in flight and the flag tells exactly whether one is. *)
Theorem one_fetch_without_refresh (colorFlag : string) (es : list Event) :
  Forall (fun e => isRefresh e = false) es ->
  (List.length (pending (runEvents (start colorFlag) es)) <= 1)%nat
  /\ (fetchingLyrics (mdl (runEvents (start colorFlag) es)) = true
      <-> pending (runEvents (start colorFlag) es) <> []).
Proof.
  intros H.
  assert (I : oneFetch (runEvents (start colorFlag) es)
              /\ flagHasFetch (runEvents (start colorFlag) es)).
  { apply (runEvents_invariant (fun p => oneFetch p /\ flagHasFetch p)
             (fun e => isRefresh e = false)).
    - intros p e He [I1 I2]. split;
        [now apply step_oneFetch | now apply step_flagHasFetch].
    - exact H.
    - split; [split; [cbn; lia | intros N; now elim N] | discriminate]. }
  destruct I as [[I1 I2] I3]. split; [exact I1|]. split; [exact I3 | exact I2].
Qed.

Lemma one_fetch_without_refresh_witness :
  (List.length
     (pending
        (runEvents (start "2")
           [Poll (Some "Song A|Artist X|Playing"); Key "n";
            Poll (Some "Song B|Artist Y|Playing")])) <= 1)%nat
  /\ (fetchingLyrics
        (mdl
           (runEvents (start "2")
              [Poll (Some "Song A|Artist X|Playing"); Key "n";
               Poll (Some "Song B|Artist Y|Playing")])) = true
      <-> pending
            (runEvents (start "2")
               [Poll (Some "Song A|Artist X|Playing"); Key "n";
                Poll (Some "Song B|Artist Y|Playing")]) <> []).
Proof.
  apply one_fetch_without_refresh. repeat constructor.
Defined.

Lemma update_shownIsLast (run : option string) (m : model) (msg : Msg) :
  shownIsLast m -> shownIsLast (st (Update run m msg)).
Proof.
  intros I. destruct msg as [key|w h|text| |]; cbn [Update];
    try exact I.
  - split_ifs; exact I.
  - destruct (getSongInfo run) as [d|err]; cbn zeta; [|exact I].
    split_ifs; [now left | exact I].
Qed.

Lemma step_shownIsLast (p : Program) (e : Event) :
  shownIsLast (mdl p) -> shownIsLast (mdl (step p e)).
Proof.
  intros I. unfold step. destruct (running p); [|exact I].
  destruct e as [key|w h|run|i get|]; unfold deliver; cbn [mdl];
    try now apply update_shownIsLast.
  destruct (nth_error (pending p) i); [|exact I].
  cbn [mdl]. now apply update_shownIsLast.
Qed.

(** X16: in every state the program reaches, the title and artist shown
    are those of the query the last tick-started fetch was for (or no
    track has been seen yet), so a fetch started by the refresh key is
    always a second fetch for that same query. *)
Theorem refresh_fetches_last_song (p : Program) (run : option string)
    (song : string) :
  reachable p ->
  In (FetchLyrics song) (cmd (Update run (mdl p) (KeyMsg "r"))) ->
  song = lastSong (mdl p) /\ song = shownSong (mdl p).
Proof.
  intros (c & es & ->) H.
  assert (I : shownIsLast (mdl (runEvents (start c) es))).
  { apply (runEvents_invariant (fun p => shownIsLast (mdl p))
             (fun _ => True)).
    - intros q e _. apply step_shownIsLast.
    - now apply Forall_forall.
    - right. repeat split. }
  set (m := mdl (runEvents (start c) es)) in *.
  cbn [Update] in H. change ("r" =? "q") with false in H.
  change ("r" =? "p") with false in H. change ("r" =? "n") with false in H.
  change ("r" =? "b") with false in H. change ("r" =? "r") with true in H.
  cbv iota in H.
  destruct (Title (songData m) =? "") eqn:T; [cbn in H; tauto|].
  destruct (Artist (songData m) =? "") eqn:A; [cbn in H; tauto|].
  cbn in H. destruct H as [H|[]]. injection H as <-.
  split; [|reflexivity].
  destruct I as [I|(_ & I & _)]; [now rewrite I|].
  rewrite I in T. discriminate.
Qed.

Lemma refresh_fetches_last_song_witness :
  "Artist X Song A" = lastSong (mdl fetchingProgram)
  /\ "Artist X Song A" = shownSong (mdl fetchingProgram).
Proof.
  apply (refresh_fetches_last_song fetchingProgram None "Artist X Song A").
  - now exists "2", [Poll (Some "Song A|Artist X|Playing")].
  - left. reflexivity.
Defined.

Lemma getSongInfo_no_lyrics (run : option string) (d : SongData) :
  getSongInfo run = Ok d -> Lyrics d = "".
Proof.
  destruct run as [out|]; [|discriminate]. rewrite getSongInfo_cases.
  destruct (strings.TrimSpace out =? ""); [discriminate|].
  destruct (threeFields _) as [[[t a] s]|]; [|discriminate].
  intros H. now injection H as <-.
Qed.

(** X17: the tick that starts the fetch for a new track puts the probed
    title, artist and status in the model and empties the lyrics: the old
    track's lyrics are never shown under the new title. *)
Theorem new_track_tick_clears_lyrics
    (run : option string) (m : model) (d : SongData) :
  getSongInfo run = Ok d ->
  songOf d <> lastSong m ->
  fetchingLyrics m = false ->
  songData (st (Update run m tickMsg))
  = mkSongData (Status d) (Title d) (Artist d) ""
  /\ fetchingLyrics (st (Update run m tickMsg)) = true
  /\ lastSong (st (Update run m tickMsg)) = songOf d
  /\ fetchesOf (cmd (Update run m tickMsg)) = [songOf d].
Proof.
  intros H N F. rewrite (update_tick_new run m d H N F).
  cbn. repeat split. pose proof (getSongInfo_no_lyrics run d H) as L.
  destruct d as [s t a l]. cbn in *. now subst.
Qed.

Lemma new_track_tick_clears_lyrics_witness :
  songData
    (st (Update (Some "Song B|Artist Y|Paused")
           (setSongData (setLyrics "la la" (songData playingA))
              (setFetching false playingA))
           tickMsg))
  = mkSongData "Paused" "Song B" "Artist Y" ""
  /\ fetchingLyrics
       (st (Update (Some "Song B|Artist Y|Paused")
              (setSongData (setLyrics "la la" (songData playingA))
                 (setFetching false playingA))
              tickMsg)) = true
  /\ lastSong
       (st (Update (Some "Song B|Artist Y|Paused")
              (setSongData (setLyrics "la la" (songData playingA))
                 (setFetching false playingA))
              tickMsg)) = "Artist Y Song B"
  /\ fetchesOf
       (cmd (Update (Some "Song B|Artist Y|Paused")
               (setSongData (setLyrics "la la" (songData playingA))
                  (setFetching false playingA))
               tickMsg)) = ["Artist Y Song B"].
Proof.
  apply (new_track_tick_clears_lyrics (Some "Song B|Artist Y|Paused")
           (setSongData (setLyrics "la la" (songData playingA))
              (setFetching false playingA))
           (mkSongData "Paused" "Song B" "Artist Y" ""));
    [reflexivity | vm_compute; discriminate | reflexivity].
Defined.

(** X18: once a fetch has returned and no probe error is recorded, the
    view shows the track lines as before and under them the text the
    fetch delivered -- lyrics or notice alike -- and no longer the
    "Fetching lyrics..." line, even if another fetch is still pending. *)
Theorem view_after_fetch
    (lip : Lipgloss) (p : Program) (i : nat) (get : Network) (song : string) :
  running p = true ->
  nth_error (pending p) i = Some song ->
  lastError (mdl p) = None ->
  content lip (mdl (step p (Done i get)))
  = trackLines lip (songData (mdl p))
    ++ (rep 1 ++ "Lyrics:" ++ rep 1) ++ fetchLyrics get song.
Proof.
  intros R H E. unfold step. rewrite R, H. unfold deliver.
  rewrite update_lyrics. cbn [st mdl]. unfold content.
  cbn [lastError fetchingLyrics songData Lyrics setSongData setFetching
       setLyrics]. rewrite E.
  pose proof (fetchLyrics_never_empty get song) as N.
  apply String.eqb_neq in N. rewrite N. reflexivity.
Qed.

Lemma view_after_fetch_witness :
  content plain (mdl (step staleProgram (Done 0 demoNet)))
  = trackLines plain (songData (mdl staleProgram))
    ++ (rep 1 ++ "Lyrics:" ++ rep 1) ++ fetchLyrics demoNet "Artist X Song A".
Proof.
  apply (view_after_fetch plain staleProgram 0 demoNet "Artist X Song A");
    reflexivity.
Defined.

Lemma control_keys (run : option string) (m : model) (msg : Msg)
    (command : string) :
  In (controlPlayer command) (exec (Update run m msg))
  <-> (msg = KeyMsg "p" /\ command = "play-pause")
      \/ (msg = KeyMsg "n" /\ command = "next")
      \/ (msg = KeyMsg "b" /\ command = "previous").
Proof.
  split.
  - destruct msg as [key|w h|text| |]; cbn [Update]; try (cbn; tauto).
    + split_ifs; cbn; intros H; try tauto; destruct H as [H|[]];
        injection H as <-;
        repeat match goal with
               | E : (_ =? _) = true |- _ => apply String.eqb_eq in E; subst
               end; tauto.
    + destruct (getSongInfo run); cbn zeta; split_ifs; cbn;
        intros H; destruct H as [H|[]]; discriminate.
  - intros [ [-> ->] | [ [-> ->] | [-> ->] ] ]; cbn; now left.
Qed.

(** X19: [Update] runs a [playerctl] control command for the keys [p],
    [n] and [b] -- play-pause, next, previous -- and for nothing else; a
    call that runs one changes nothing in the model and returns no
    command. *)
Theorem control_only_on_player_keys
    (run : option string) (m : model) (msg : Msg) (command : string) :
  (In (controlPlayer command) (exec (Update run m msg))
   <-> (msg = KeyMsg "p" /\ command = "play-pause")
       \/ (msg = KeyMsg "n" /\ command = "next")
       \/ (msg = KeyMsg "b" /\ command = "previous"))
  /\ (In (controlPlayer command) (exec (Update run m msg)) ->
      st (Update run m msg) = m /\ cmd (Update run m msg) = []).
Proof.
  split; [apply control_keys|]. intros H. apply control_keys in H.
  destruct H as [ [-> _] | [ [-> _] | [-> _] ] ]; now split.
Qed.

Lemma step_freshFetches (p : Program) (e : Event) :
  isRefresh e = false ->
  oneFetch p /\ freshFetches p ->
  freshFetches (step p e).
Proof.
  unfold freshFetches. intros Hr [[Hl Hf] I]. unfold step.
  destruct (running p); [|exact I].
  destruct e as [key|w h|run|i get|]; unfold deliver.
  - cbn [isRefresh] in Hr. cbn [Update]. rewrite Hr.
    split_ifs; cbn [st cmd fetchesOf mdl pending]; rewrite app_nil_r;
      exact I.
  - cbn [Update st cmd fetchesOf mdl pending]. rewrite app_nil_r. exact I.
  - cbn [Update]. destruct (getSongInfo run) as [d|err].
    + cbn zeta. destruct (fetchingLyrics (mdl p)) eqn:F.
      * rewrite andb_false_r. cbn [st cmd fetchesOf mdl pending].
        rewrite app_nil_r. exact I.
      * destruct (pending p) as [|x l] eqn:P;
          [|now specialize (Hf ltac:(discriminate))].
        destruct (negb (songOf d =? lastSong (mdl p)));
          cbn [andb negb st cmd fetchesOf mdl pending app].
        -- repeat constructor.
        -- constructor.
    + cbn [st cmd fetchesOf mdl pending]. rewrite app_nil_r. exact I.
  - destruct (nth_error (pending p) i) as [song|] eqn:N; [|exact I].
    cbn [Update st cmd fetchesOf mdl pending]. rewrite app_nil_r.
    destruct (pending p) as [|x [|y l]]; cbn [List.length] in Hl; try lia.
    + destruct i; discriminate.
    + destruct i as [|i]; [constructor | destruct i; discriminate].
  - cbn [Update st cmd fetchesOf mdl pending]. rewrite app_nil_r. exact I.
Qed.

(** X21: as long as the refresh key is not pressed, a fetch that has not
    returned is for the track the model is on: when it returns, the text
    it delivers belongs to the title and artist shown. *)
Theorem pending_fetch_is_for_shown_track
    (colorFlag : string) (es : list Event) (i : nat) (song : string) :
  Forall (fun e => isRefresh e = false) es ->
  nth_error (pending (runEvents (start colorFlag) es)) i = Some song ->
  song = lastSong (mdl (runEvents (start colorFlag) es))
  /\ song = shownSong (mdl (runEvents (start colorFlag) es)).
Proof.
  intros H N.
  assert (I : oneFetch (runEvents (start colorFlag) es)
              /\ freshFetches (runEvents (start colorFlag) es)).
  { apply (runEvents_invariant (fun p => oneFetch p /\ freshFetches p)
             (fun e => isRefresh e = false)).
    - intros p e He I. split;
        [apply step_oneFetch; [exact He | exact (proj1 I)]
        | now apply step_freshFetches].
    - exact H.
    - split; [split; [cbn; lia | intros E; now elim E] | constructor]. }
  destruct I as [_ I]. unfold freshFetches in I.
  rewrite Forall_forall in I. apply I. eapply nth_error_In. exact N.
Qed.

Lemma pending_fetch_is_for_shown_track_witness :
  "Artist X Song A"
  = lastSong
      (mdl
         (runEvents (start "2")
            [Poll (Some "Song A|Artist X|Playing");
             Poll (Some "Song B|Artist Y|Playing")]))
  /\ "Artist X Song A"
     = shownSong
         (mdl
            (runEvents (start "2")
               [Poll (Some "Song A|Artist X|Playing");
                Poll (Some "Song B|Artist Y|Playing")])).
Proof.
  apply (pending_fetch_is_for_shown_track "2"
           [Poll (Some "Song A|Artist X|Playing");
            Poll (Some "Song B|Artist Y|Playing")] 0 "Artist X Song A");
    [repeat constructor | reflexivity].
Defined.

End EngineMore.

(** ** When the clean-up is idempotent *)

Section Idempotence.

Lemma build_parse (s : string) : build (parseRuns s) (parseLast s) = s.
Proof.
  induction s as [|c s IH]; [reflexivity|].
  cbn [parseRuns parseLast]. destruct (Ascii.eqb_spec c nl) as [->|N].
  - destruct (parseRuns s) as [|[n d] l]; cbn [build rep append] in *;
      now rewrite IH.
  - cbn [build rep append]. now rewrite IH.
Qed.

Lemma parse_wellFormed (s : string) : wellFormed (parseRuns s).
Proof.
  induction s as [|c s IH]; [constructor|].
  cbn [parseRuns]. destruct (Ascii.eqb_spec c nl) as [->|N].
  - destruct (parseRuns s) as [|[n d] l]; [constructor|].
    inversion IH; subst. now constructor.
  - now constructor.
Qed.

Lemma parseRuns_build (l : list (nat * ascii)) (last : nat) :
  wellFormed l -> parseRuns (build l last) = l.
Proof.
  intros W. induction W as [|[n c] l Hc W IH]; cbn [build].
  - induction last as [|k IHk]; [reflexivity|].
    cbn [rep parseRuns]. rewrite Ascii.eqb_refl. now rewrite IHk.
  - cbn [snd] in Hc. induction n as [|n IHn].
    + cbn [rep append parseRuns]. apply Ascii.eqb_neq in Hc.
      now rewrite Hc, IH.
    + cbn [rep append parseRuns]. rewrite Ascii.eqb_refl. now rewrite IHn.
Qed.

Lemma parseLast_build (l : list (nat * ascii)) (last : nat) :
  wellFormed l -> parseLast (build l last) = last.
Proof.
  intros W. induction W as [|[n c] l Hc W IH]; cbn [build].
  - induction last as [|k IHk]; [reflexivity|].
    cbn [rep parseLast]. rewrite Ascii.eqb_refl.
    pose proof (parseRuns_build [] k (Forall_nil _)) as P.
    cbn [build] in P. now rewrite P, IHk.
  - cbn [snd] in Hc. induction n as [|n IHn].
    + cbn [rep append parseLast]. apply Ascii.eqb_neq in Hc.
      now rewrite Hc, IH.
    + cbn [rep append parseLast]. rewrite Ascii.eqb_refl.
      change (rep n ++ String c (build l last))
        with (build ((n, c) :: l) last).
      rewrite (parseRuns_build ((n, c) :: l) last)
        by (constructor; assumption).
      exact IHn.
Qed.

(** Two texts are equal exactly when their runs are. *)
Lemma build_injective (l l' : list (nat * ascii)) (last last' : nat) :
  wellFormed l -> wellFormed l' ->
  build l last = build l' last' -> l = l' /\ last = last'.
Proof.
  intros W W' E. split.
  - rewrite <- (parseRuns_build l last W), E. now apply parseRuns_build.
  - rewrite <- (parseLast_build l last W), E. now apply parseLast_build.
Qed.

Lemma ReplaceAll_run (d : ascii) (new : string) (n : nat) (t : string) :
  d <> nl ->
  strings.ReplaceAll (rep n ++ t) (String d "") new
  = rep n ++ strings.ReplaceAll t (String d "") new.
Proof.
  intros N. induction n as [|n IH]; [reflexivity|].
  cbn [rep append]. rewrite ReplaceAll_byte.
  apply Ascii.eqb_neq in N. now rewrite N, IH.
Qed.

Lemma brackets_run (n : nat) (t : string) :
  brackets (rep n ++ t) = rep n ++ brackets t.
Proof.
  unfold brackets. now rewrite !ReplaceAll_run by discriminate.
Qed.

Lemma brackets_rep (n : nat) : brackets (rep n) = rep n.
Proof.
  rewrite <- (append_nil_r (rep n)) at 1. rewrite brackets_run.
  apply append_nil_r.
Qed.

Lemma brackets_byte (c : ascii) (t : string) :
  c <> nl ->
  brackets (String c t)
  = rep (b2n (Ascii.eqb c "["))
    ++ String c (rep (b2n (Ascii.eqb c "]")) ++ brackets t).
Proof.
  intros N. unfold brackets. rewrite ReplaceAll_byte.
  destruct (Ascii.eqb_spec "[" c) as [<-|No].
  - cbn [append]. rewrite ReplaceAll_byte.
    change (Ascii.eqb "]" nl) with false. cbv iota.
    rewrite ReplaceAll_byte. reflexivity.
  - rewrite ReplaceAll_byte.
    destruct (Ascii.eqb_spec "]" c) as [<-|Nc]; [reflexivity|].
    rewrite (Ascii.eqb_sym c "["), (Ascii.eqb_sym c "]").
    apply Ascii.eqb_neq in No, Nc. now rewrite No, Nc.
Qed.

(** The brackets, on runs. *)
Lemma brackets_build (l : list (nat * ascii)) (last : nat) :
  wellFormed l ->
  forall afterClose,
    rep (b2n afterClose) ++ brackets (build l last)
    = build (bracketRuns afterClose l) (bracketLast afterClose l last).
Proof.
  intros W. induction W as [|[n c] l Hc W IH]; intros b;
    cbn [build bracketRuns bracketLast].
  - rewrite brackets_rep, <- rep_add. f_equal. lia.
  - cbn [snd] in Hc. rewrite brackets_run, brackets_byte by exact Hc.
    rewrite IH. rewrite <- !append_assoc, <- !rep_add.
    f_equal. f_equal. lia.
Qed.

Lemma bracketRuns_wellFormed (l : list (nat * ascii)) (b : bool) :
  wellFormed l -> wellFormed (bracketRuns b l).
Proof.
  intros W. revert b. induction W as [|[n c] l Hc W IH]; intros b;
    cbn [bracketRuns]; [constructor|].
  constructor; [exact Hc | apply IH].
Qed.

Lemma keepRuns_wellFormed (l : list (nat * ascii)) :
  wellFormed l -> wellFormed (keepRuns l).
Proof.
  intros W. induction W as [|[n c] l Hc W IH]; cbn [keepRuns map];
    [constructor|].
  constructor; [exact Hc | exact IH].
Qed.

(** The collapse, on runs. *)
Lemma collapse_build (l : list (nat * ascii)) (last : nat) :
  wellFormed l ->
  collapse (build l last) = build (keepRuns l) (keep last).
Proof.
  intros W. induction W as [|[n c] l Hc W IH]; cbn [build keepRuns map].
  - rewrite <- (append_nil_r (rep last)) at 1.
    rewrite collapse_run by reflexivity. apply append_nil_r.
  - cbn [snd fst] in *. rewrite collapse_run by now apply no_lead_cons.
    rewrite collapse_other by exact Hc. now rewrite IH.
Qed.

(** The whole clean-up, on runs. *)
Lemma normalize_build (l : list (nat * ascii)) (last : nat) :
  wellFormed l ->
  normalize (build l last)
  = build (keepRuns (bracketRuns false l)) (keep (bracketLast false l last)).
Proof.
  intros W. unfold normalize.
  pose proof (brackets_build l last W false) as B.
  cbn [b2n rep append] in B. rewrite B.
  apply collapse_build. now apply bracketRuns_wellFormed.
Qed.

Lemma div3 (m : nat) : exists a b, m = (3 * a + b)%nat /\ (b < 3)%nat /\ m / 3 = a.
Proof.
  exists (m / 3), (m mod 3). repeat split.
  - apply Nat.div_mod_eq.
  - apply Nat.mod_upper_bound. discriminate.
Qed.

(** A run is left alone by a second clean-up exactly at the lengths of
    [runStable]. *)
Lemma keep_stable (r k : nat) :
  (k <= 2)%nat ->
  keep (keep (r + k) + k) = keep (r + k) <-> runStable (r, k) = true.
Proof.
  intros Hk. unfold keep, runStable. cbn [fst snd].
  destruct (div3 (r + k)) as (a & b & E1 & B1 & ->).
  destruct (div3 (r + k - a + k)) as (c & d & E2 & B2 & ->).
  destruct k as [|[|[|k]]]; [| | |lia].
  - rewrite Nat.leb_le. lia.
  - rewrite andb_true_iff, !Nat.leb_le. lia.
  - rewrite andb_true_iff, !Nat.leb_le. lia.
Qed.

Lemma b2n_le (a b : bool) : (b2n a + b2n b <= 2)%nat.
Proof. destruct a, b; cbn; lia. Qed.

Lemma bracketLast_keep (b : bool) (l : list (nat * ascii)) (last : nat) :
  bracketLast b (keepRuns (bracketRuns b l)) last = bracketLast b l last.
Proof.
  revert b. induction l as [|[n c] l IH]; intros b; [reflexivity|].
  cbn [bracketRuns keepRuns map bracketLast fst snd]. apply IH.
Qed.

(** Cleaning up the runs of a cleaned-up text changes nothing exactly when
    every run of the text was stable. *)
Lemma runs_stable (l : list (nat * ascii)) (last : nat) (b : bool) :
  (keepRuns (bracketRuns b (keepRuns (bracketRuns b l)))
   = keepRuns (bracketRuns b l)
   /\ keep (bracketLast b (keepRuns (bracketRuns b l))
             (keep (bracketLast b l last)))
      = keep (bracketLast b l last))
  <-> forallb runStable (touched b l last) = true.
Proof.
  revert b. induction l as [|[n c] l IH]; intros b.
  - cbn [bracketRuns keepRuns map bracketLast touched forallb].
    rewrite andb_true_r.
    rewrite <- (keep_stable last (b2n b)) by (destruct b; cbn; lia).
    tauto.
  - cbn [bracketRuns keepRuns map bracketLast touched forallb fst snd].
    rewrite andb_true_iff, <- IH.
    rewrite <- (keep_stable n (b2n b + b2n (Ascii.eqb c "[")))
      by apply b2n_le.
    fold (keepRuns (bracketRuns (Ascii.eqb c "]") l)).
    fold (keepRuns
            (bracketRuns (Ascii.eqb c "]")
               (keepRuns (bracketRuns (Ascii.eqb c "]") l)))).
    split.
    + intros [E1 E2]. injection E1 as E0 E1. tauto.
    + intros [E0 [E1 E2]]. split; [|exact E2]. now rewrite E0, E1.
Qed.

(** C2, as the code has it: cleaning up twice gives what cleaning up once
    gives exactly on the texts all of whose newline runs are stable -- at
    most three newlines where no bracket touches the run, one to five
    before an opening or after a closing bracket, three to seven between a
    closing and an opening bracket.  An opening bracket with no newline
    before it, or a closing one with none after it, is enough to make the
    second pass differ. *)
Theorem normalize_idempotent_iff (x : string) :
  normalize (normalize x) = normalize x <-> stable x = true.
Proof.
  pose proof (parse_wellFormed x) as W.
  unfold stable. rewrite <- runs_stable.
  set (l := parseRuns x) in *. set (last := parseLast x).
  assert (W1 : wellFormed (keepRuns (bracketRuns false l)))
    by now apply keepRuns_wellFormed, bracketRuns_wellFormed.
  assert (N1 : normalize x
               = build (keepRuns (bracketRuns false l))
                   (keep (bracketLast false l last))).
  { rewrite <- (normalize_build l last W). f_equal. symmetry.
    apply build_parse. }
  rewrite N1, (normalize_build _ _ W1).
  split.
  - intros E. apply build_injective in E; [exact E| |exact W1].
    now apply keepRuns_wellFormed, bracketRuns_wellFormed.
  - intros [E1 E2]. now rewrite E1, E2.
Qed.

Example stable_marker_text :
  stable ("intro" ++ rep 2 ++ "[Chorus]" ++ rep 1 ++ "la la") = true
  /\ normalize
       (normalize ("intro" ++ rep 2 ++ "[Chorus]" ++ rep 1 ++ "la la"))
     = normalize ("intro" ++ rep 2 ++ "[Chorus]" ++ rep 1 ++ "la la").
Proof. split; reflexivity. Qed.

Example unstable_markers :
  stable "[Chorus]" = false
  /\ stable ("a" ++ rep 4 ++ "b") = false
  /\ stable ("[Verse]" ++ rep 1 ++ "[Chorus]" ++ rep 1) = false
  /\ stable (rep 1 ++ "[Verse]" ++ rep 3 ++ "[Chorus]" ++ rep 1) = true.
Proof. repeat split. Qed.

End Idempotence.

(** ** Two ticks in a row *)

Section TwoTicks.

(** Between two ticks, and short of a completion, the track data, the
    query last fetched for and the error stay, and the flag does not go
    down. *)
Lemma between_kept (run : option string) (m : model) (msg : Msg) :
  betweenTicks msg = true ->
  songData (st (Update run m msg)) = songData m
  /\ lastSong (st (Update run m msg)) = lastSong m
  /\ lastError (st (Update run m msg)) = lastError m
  /\ color (st (Update run m msg)) = color m
  /\ (fetchingLyrics m = true ->
      fetchingLyrics (st (Update run m msg)) = true)
  /\ (fetchingLyrics (st (Update run m msg)) = fetchingLyrics m
      \/ msg = KeyMsg "r").
Proof.
  destruct msg as [key|w h|text| |]; try discriminate; intros _;
    try (cbn; repeat split; auto; fail).
  cbn [Update].
  destruct (key =? "q"); [cbn; repeat split; auto|].
  destruct (key =? "p"); [cbn; repeat split; auto|].
  destruct (key =? "n"); [cbn; repeat split; auto|].
  destruct (key =? "b"); [cbn; repeat split; auto|].
  destruct (String.eqb_spec key "r") as [->|N]; [|cbn; repeat split; auto].
  destruct (negb _ && negb _); cbn; repeat split; auto.
Qed.

Lemma feed_between_kept (ins : list (option string * Msg)) (m : model) :
  Forall (fun i => betweenTicks (snd i) = true) ins ->
  songData (feed m ins) = songData m
  /\ lastSong (feed m ins) = lastSong m
  /\ lastError (feed m ins) = lastError m
  /\ (fetchingLyrics m = true -> fetchingLyrics (feed m ins) = true).
Proof.
  intros H. revert m. induction H as [|[run msg] ins Hi _ IH]; intros m.
  - repeat split; auto.
  - destruct (between_kept run m msg Hi) as (E1 & E2 & E3 & _ & E4 & _).
    cbn [feed fold_left fst snd].
    destruct (IH (st (Update run m msg))) as (I1 & I2 & I3 & I4).
    unfold feed in *. rewrite I1, I2, I3, E1, E2, E3. repeat split; auto.
Qed.

(** After a successful tick the reported query is the one last fetched
    for, or a fetch is under way. *)
Lemma tick_settles (run : option string) (m : model) (d : SongData) :
  getSongInfo run = Ok d ->
  (lastSong (st (Update run m tickMsg)) = songOf d
   \/ fetchingLyrics (st (Update run m tickMsg)) = true)
  /\ (List.length (fetchesOf (cmd (Update run m tickMsg))) <= 1)%nat
  /\ (lastError (st (Update run m tickMsg)) = None
      \/ fetchingLyrics (st (Update run m tickMsg)) = true).
Proof.
  intros H. destruct (fetchingLyrics m) eqn:F.
  - rewrite (update_tick_known run m d H (or_intror F)). cbn.
    repeat split; auto.
  - destruct (string_dec (songOf d) (lastSong m)) as [E|N].
    + rewrite (update_tick_known run m d H (or_introl E)). cbn.
      repeat split; auto.
    + rewrite (update_tick_new run m d H N F). cbn. repeat split; auto.
Qed.




(** X20: two ticks in a row that both succeed, with no fetch completion
    handled between them (keys and resizes may be), leave no error
    recorded, whatever the state before them and whichever tracks they
    report. *)
Theorem two_polls_in_a_row_clear_error
    (m : model) (run1 run2 : option string) (d1 d2 : SongData)
    (between : list (option string * Msg)) :
  getSongInfo run1 = Ok d1 ->
  getSongInfo run2 = Ok d2 ->
  Forall (fun i => betweenTicks (snd i) = true) between ->
  lastError
    (st (Update run2 (feed (st (Update run1 m tickMsg)) between) tickMsg))
  = None.
Proof.
  intros H1 H2 Hb.
  destruct (tick_settles run1 m d1 H1) as (_ & _ & K).
  destruct (feed_between_kept between (st (Update run1 m tickMsg)) Hb)
    as (_ & _ & B3 & B4).
  set (m' := feed (st (Update run1 m tickMsg)) between) in *.
  destruct (fetchingLyrics m') eqn:F.
  - now rewrite (update_tick_known run2 m' d2 H2 (or_intror F)).
  - destruct K as [K|K]; [|discriminate (B4 K)].
    destruct (string_dec (songOf d2) (lastSong m')) as [E|N].
    + now rewrite (update_tick_known run2 m' d2 H2 (or_introl E)).
    + rewrite (update_tick_new run2 m' d2 H2 N F). cbn. congruence.
Qed.

Lemma two_polls_in_a_row_clear_error_witness :
  lastError
    (st (Update (Some "Song B|Artist Y|Playing")
           (feed (st (Update (Some "Song A|Artist X|Playing") failedModel
                        tickMsg))
              [(None, KeyMsg "r"); (None, WindowSizeMsg 80 24)])
           tickMsg))
  = None.
Proof.
  apply (two_polls_in_a_row_clear_error failedModel
           (Some "Song A|Artist X|Playing") (Some "Song B|Artist Y|Playing")
           (mkSongData "Playing" "Song A" "Artist X" "")
           (mkSongData "Playing" "Song B" "Artist Y" "")
           [(None, KeyMsg "r"); (None, WindowSizeMsg 80 24)]);
    try reflexivity.
  repeat constructor.
Defined.

(** C10, as it is worded, fails when the refresh key is pressed between
    the completion and the next tick: the key starts a second fetch for
    song A and raises the flag, and the tick that reports song B starts
    nothing. *)
Lemma refresh_after_completion_delays_fetch :
  fetchingLyrics playingA = true
  /\ songOf (mkSongData "Playing" "Song B" "Artist Y" "") <> lastSong playingA
  /\ lastSong changedDuringFetch = lastSong playingA
  /\ fetchingLyrics (st (Update None changedDuringFetch (lyricsMsg "la la")))
     = false
  /\ cmd (Update None
            (st (Update None changedDuringFetch (lyricsMsg "la la")))
            (KeyMsg "r"))
     = [FetchLyrics "Artist X Song A"]
  /\ cmd (Update (Some "Song B|Artist Y|Playing")
            (st (Update None
                   (st (Update None changedDuringFetch (lyricsMsg "la la")))
                   (KeyMsg "r")))
            tickMsg)
     = [Tick].
Proof. repeat split. vm_compute. discriminate. Qed.

End TwoTicks.

(** ** [strings.TrimSpace] against the relation *)

Lemma spaceWidth_none (l : list string) (s : string) :
  Forall (fun e => e <> "") l ->
  strings.spaceWidth l s = 0%nat
  <-> existsb (fun e => prefix e s) l = false.
Proof.
  intros F. induction F as [|e l He _ IH]; [now split|].
  cbn [strings.spaceWidth existsb]. destruct (prefix e s); cbn [orb].
  - split; [|discriminate]. destruct e; [now elim He | discriminate].
  - exact IH.
Qed.

Section TrimFacts.

Variable encs : list string.
Hypothesis encs_nonempty : Forall (fun e => e <> "") encs.
Hypothesis encs_prefix_free :
  forall e e', In e encs -> In e' encs -> prefix e e' = true -> e = e'.

Lemma prefix_split (a b u : string) :
  prefix a (b ++ u) = true -> prefix a b = true \/ prefix b a = true.
Proof.
  revert b. induction a as [|x a IH]; intros b H.
  - left. apply prefix_nil.
  - destruct b as [|y b]; [right; apply prefix_nil|].
    cbn [append] in H. rewrite prefix_cons in H.
    apply andb_true_iff in H as [H1 H2].
    rewrite !prefix_cons, H1, (Ascii.eqb_sym y x), H1. cbn [andb].
    now apply IH.
Qed.

Lemma prefix_decompose (e s : string) :
  prefix e s = true -> exists t, s = e ++ t.
Proof.
  revert s. induction e as [|x e IH]; intros s H.
  - now exists s.
  - destruct s as [|c s]; [discriminate|]. rewrite prefix_cons in H.
    apply andb_true_iff in H as [H1 H2]. apply Ascii.eqb_eq in H1. subst c.
    destruct (IH s H2) as [t ->]. now exists t.
Qed.

Lemma trimFront_skip (u t : string) :
  strings.trimFront encs (String.length u) (u ++ t)
  = strings.trimFront encs 0 t.
Proof. induction u as [|x u IH]; [reflexivity | exact IH]. Qed.

Lemma spaceWidth_found (l : list string) (s : string) (k : nat) :
  strings.spaceWidth l s = S k ->
  exists e, In e l /\ prefix e s = true /\ String.length e = S k.
Proof.
  induction l as [|e l IH]; [discriminate|].
  cbn [strings.spaceWidth]. destruct (prefix e s) eqn:P.
  - intros H. exists e. repeat split; [now left | exact P | exact H].
  - intros H. destruct (IH H) as (e' & I & Q). exists e'. split; [now right|].
    exact Q.
Qed.

Lemma spaceWidth_enc (e u : string) :
  In e encs -> strings.spaceWidth encs (e ++ u) = String.length e.
Proof.
  intros I. destruct (strings.spaceWidth encs (e ++ u)) as [|k] eqn:W.
  - apply spaceWidth_none in W; [|exact encs_nonempty].
    assert (X : existsb (fun e0 => prefix e0 (e ++ u)) encs = true).
    { apply existsb_exists. exists e. split; [exact I|].
      apply prefix_append. }
    congruence.
  - destruct (spaceWidth_found _ _ _ W) as (e' & I' & P & L).
    destruct (prefix_split _ _ _ P) as [Q|Q].
    + now rewrite <- (encs_prefix_free e' e I' I Q).
    + now rewrite (encs_prefix_free e e' I I' Q).
Qed.

Lemma trimFront_enc (e u : string) :
  In e encs ->
  strings.trimFront encs 0 (e ++ u) = strings.trimFront encs 0 u.
Proof.
  intros I. pose proof (spaceWidth_enc e u I) as W.
  destruct e as [|c e].
  - rewrite Forall_forall in encs_nonempty. now elim (encs_nonempty "" I).
  - cbn [append] in *. cbn [strings.trimFront]. rewrite W.
    cbn [String.length]. apply trimFront_skip.
Qed.

Lemma trimFront_blank (w u : string) :
  BlankOf encs w ->
  strings.trimFront encs 0 (w ++ u) = strings.trimFront encs 0 u.
Proof.
  intros B. induction B as [|e w I B IH]; [reflexivity|].
  rewrite append_assoc, trimFront_enc by exact I. exact IH.
Qed.

Lemma trimFront_decompose (s : string) :
  exists w, BlankOf encs w /\ s = w ++ strings.trimFront encs 0 s.
Proof.
  remember (String.length s) as n eqn:L. revert s L.
  induction n as [n IH] using lt_wf_ind. intros s L.
  destruct (strings.spaceWidth encs s) as [|k] eqn:W.
  - exists "". split; [constructor|]. now rewrite trimFront_fixed.
  - destruct (spaceWidth_found _ _ _ W) as (e & I & P & Le).
    destruct (prefix_decompose _ _ P) as [t ->].
    rewrite trimFront_enc by exact I.
    destruct (IH (String.length t)) with (s := t) as (w & B & E);
      [rewrite L, length_append; lia | reflexivity |].
    exists (e ++ w). split; [now constructor|].
    now rewrite append_assoc, <- E.
Qed.

Lemma Blank_snoc (a e : string) :
  BlankOf encs a -> In e encs -> BlankOf encs (a ++ e).
Proof.
  intros B I. induction B as [|e' w I' B IH].
  - cbn [append]. rewrite <- (append_nil_r e). now repeat constructor.
  - rewrite append_assoc. now constructor.
Qed.

Lemma Blank_reverse (w : string) :
  BlankOf encs w -> BlankOf (map revString encs) (revString w).
Proof.
  intros B. induction B as [|e w I B IH]; [constructor|].
  rewrite revString_append. clear encs_nonempty encs_prefix_free.
  revert IH. generalize (revString w) as a. intros a Ba.
  induction Ba as [|e' w' I' B' IH'].
  - cbn [append]. rewrite <- (append_nil_r (revString e)).
    constructor; [now apply in_map | constructor].
  - rewrite append_assoc. now constructor.
Qed.

End TrimFacts.

Section Trimming.

Lemma revSpaces_nonempty : Forall (fun e => e <> "") revSpaces.
Proof. vm_compute. repeat constructor; discriminate. Qed.

Lemma pairs_checked (l : list string) :
  forallb (fun e => forallb (fun e' => implb (prefix e e') (e =? e')) l) l
  = true ->
  forall e e', In e l -> In e' l -> prefix e e' = true -> e = e'.
Proof.
  intros H e e' I I' P. rewrite forallb_forall in H.
  specialize (H e I). rewrite forallb_forall in H. specialize (H e' I').
  rewrite P in H. now apply String.eqb_eq.
Qed.

Lemma spaces_prefix_free :
  forall e e', In e strings.spaces -> In e' strings.spaces ->
  prefix e e' = true -> e = e'.
Proof. apply pairs_checked. vm_compute. reflexivity. Qed.

Lemma revSpaces_prefix_free :
  forall e e', In e revSpaces -> In e' revSpaces ->
  prefix e e' = true -> e = e'.
Proof. apply pairs_checked. vm_compute. reflexivity. Qed.

Lemma revSpaces_reversed : map revString revSpaces = strings.spaces.
Proof. vm_compute. reflexivity. Qed.

(** No white-space rune has, after its first byte, a byte that a
    white-space rune starts with. *)
Lemma spaces_tails :
  forall e e2 e3, In e strings.spaces -> In e2 (tailsOf e) ->
  In e3 strings.spaces -> sameHead e2 e3 = false.
Proof.
  assert (H : forallb
                (fun e => forallb
                   (fun e2 => forallb (fun e3 => negb (sameHead e2 e3))
                                strings.spaces)
                   (tailsOf e))
                strings.spaces = true) by (vm_compute; reflexivity).
  intros e e2 e3 I I2 I3. rewrite forallb_forall in H.
  specialize (H e I). rewrite forallb_forall in H. specialize (H e2 I2).
  rewrite forallb_forall in H. specialize (H e3 I3).
  now apply negb_true_iff.
Qed.

Lemma tailsOf_split (c e2 : string) :
  c <> "" -> In e2 (tailsOf (c ++ e2)).
Proof.
  induction c as [|x c IH]; intros N; [now elim N|].
  cbn [append tailsOf]. destruct c as [|y c]; [now left|].
  right. apply IH. discriminate.
Qed.

Lemma prefix_sameHead (a b : string) :
  a <> "" -> b <> "" -> prefix a b = true -> sameHead a b = true.
Proof.
  destruct a as [|x a]; [intros N; now elim N|].
  destruct b as [|y b]; [intros _ N; now elim N|].
  intros _ _. rewrite prefix_cons. intros H.
  now apply andb_true_iff in H as [H _].
Qed.

Lemma sameHead_sym (a b : string) : sameHead a b = sameHead b a.
Proof. destruct a, b; cbn; auto. apply Ascii.eqb_sym. Qed.

Lemma prefix_cancel (c a b : string) :
  prefix (c ++ a) (c ++ b) = true -> prefix a b = true.
Proof.
  induction c as [|x c IH]; [auto|]. cbn [append]. rewrite prefix_cons.
  intros H. apply andb_true_iff in H as [_ H]. now apply IH.
Qed.

Lemma existsb_map_rev (f : string -> bool) (l : list string) :
  existsb f (map revString l) = existsb (fun e => f (revString e)) l.
Proof.
  induction l as [|e l IH]; [reflexivity|]. cbn. now rewrite IH.
Qed.

Lemma endsWithSpace_none (c : string) :
  endsWithSpace c = false
  <-> strings.spaceWidth revSpaces (revString c) = 0%nat.
Proof.
  rewrite (spaceWidth_none revSpaces _ revSpaces_nonempty).
  unfold revSpaces. rewrite existsb_map_rev. reflexivity.
Qed.

Lemma startsWithSpace_none (c : string) :
  startsWithSpace c = false
  <-> strings.spaceWidth strings.spaces c = 0%nat.
Proof.
  rewrite (spaceWidth_none strings.spaces _ spaces_nonempty). reflexivity.
Qed.

(** What [strings.TrimSpace] returns is the trimmed text. *)
Lemma TrimSpace_Trimmed (s : string) : Trimmed s (strings.TrimSpace s).
Proof.
  split; [|split].
  - destruct (trimFront_decompose strings.spaces spaces_nonempty
                spaces_prefix_free s) as (w1 & B1 & E1).
    fold (strings.TrimLeft s) in E1.
    destruct (trimFront_decompose revSpaces revSpaces_nonempty
                revSpaces_prefix_free (revString (strings.TrimLeft s)))
      as (w2 & B2 & E2).
    exists w1, (revString w2). split; [|split].
    + rewrite E1 at 1. f_equal. unfold strings.TrimSpace, strings.TrimRight.
      fold revSpaces. rewrite <- revString_append, <- E2.
      now rewrite revString_involutive.
    + exact B1.
    + unfold Blank. rewrite <- revSpaces_reversed. now apply Blank_reverse.
  - apply startsWithSpace_none, TrimSpace_no_leading_space.
  - apply endsWithSpace_none, TrimSpace_no_trailing_space.
Qed.

Lemma TrimLeft_core (c r : string) :
  c <> "" -> startsWithSpace c = false -> Blank r ->
  strings.TrimLeft (c ++ r) = c ++ r.
Proof.
  intros N S B. unfold strings.TrimLeft. apply trimFront_fixed.
  apply startsWithSpace_none.
  destruct (startsWithSpace (c ++ r)) eqn:X; [exfalso|reflexivity].
  apply existsb_exists in X as (e & I & P).
  assert (Pc : prefix e c = false).
  { unfold startsWithSpace in S.
    destruct (prefix e c) eqn:Q; [|reflexivity].
    assert (Y : existsb (fun e0 => prefix e0 c) strings.spaces = true)
      by (apply existsb_exists; now exists e).
    congruence. }
  destruct (prefix_split _ _ _ P) as [Q|Q]; [congruence|].
  destruct (prefix_decompose _ _ Q) as [e2 ->].
  apply prefix_cancel in P.
  assert (N2 : e2 <> "").
  { intros ->. rewrite append_nil_r in Pc.
    pose proof (prefix_append c "") as R. rewrite append_nil_r in R.
    congruence. }
  pose proof (tailsOf_split c e2 N) as T.
  inversion B as [|e3 w I3 Bw E]; subst.
  - destruct e2; [now elim N2 | discriminate].
  - assert (N3 : e3 <> "").
    { pose proof spaces_nonempty as F. rewrite Forall_forall in F.
      now apply F. }
    pose proof (spaces_tails _ _ _ I T I3) as SH.
    destruct (prefix_split _ _ _ P) as [R|R].
    + rewrite (prefix_sameHead _ _ N2 N3 R) in SH. discriminate.
    + rewrite sameHead_sym, (prefix_sameHead _ _ N3 N2 R) in SH.
      discriminate.
Qed.

(** The trimmed text is what [strings.TrimSpace] returns: the relation
    has one solution. *)
Lemma Trimmed_TrimSpace (s c : string) :
  Trimmed s c -> strings.TrimSpace s = c.
Proof.
  intros ((l & r & -> & Bl & Br) & S & E).
  unfold strings.TrimSpace.
  assert (L : strings.TrimLeft (l ++ c ++ r) = strings.TrimLeft (c ++ r)).
  { unfold strings.TrimLeft.
    apply (trimFront_blank strings.spaces spaces_nonempty
             spaces_prefix_free). exact Bl. }
  rewrite L. destruct c as [|x c].
  - cbn [append]. unfold strings.TrimLeft.
    rewrite <- (append_nil_r r).
    rewrite (trimFront_blank strings.spaces spaces_nonempty
               spaces_prefix_free r "" Br).
    reflexivity.
  - rewrite TrimLeft_core by (discriminate || assumption).
    unfold strings.TrimRight. fold revSpaces. rewrite revString_append.
    rewrite (trimFront_blank revSpaces revSpaces_nonempty
               revSpaces_prefix_free).
    + rewrite trimFront_fixed by now apply endsWithSpace_none.
      apply revString_involutive.
    + now apply Blank_reverse.
Qed.

End Trimming.

(** ** The probe, by the trimmed output *)

Section ProbeByRelation.

(** C9: for every output the utility printed, with [core] its
    white-space-trimmed text, the probe reports "no song playing" exactly
    when [core] is empty, "unexpected metadata format" exactly when [core]
    is not empty and does not hold exactly two pipes, and otherwise
    succeeds: its title, artist and status are the trimmed texts of the
    three parts the pipes cut [core] into. *)
Theorem getSongInfo_by_trimmed_output (out core : string) :
  Trimmed out core ->
  (getSongInfo (Some out) = Err "no song playing" <-> core = "")
  /\ (getSongInfo (Some out) = Err "unexpected metadata format"
      <-> core <> "" /\ countByte "|" core <> 2%nat)
  /\ (forall d,
        getSongInfo (Some out) = Ok d
        <-> exists t a s,
              core = t ++ "|" ++ a ++ "|" ++ s
              /\ countByte "|" t = 0%nat
              /\ countByte "|" a = 0%nat
              /\ countByte "|" s = 0%nat
              /\ Trimmed t (Title d)
              /\ Trimmed a (Artist d)
              /\ Trimmed s (Status d)
              /\ Lyrics d = "").
Proof.
  intros T. pose proof (Trimmed_TrimSpace _ _ T) as E.
  destruct (getSongInfo_outcomes out) as (A & B & C & _ & L).
  rewrite E in *. split; [exact A|]. split; [rewrite B; tauto|].
  intros d. rewrite (C d). split.
  - intros (N & t & a & s & S & ->).
    pose proof (Split_join "|" core) as J. rewrite S in J.
    pose proof (Split_fields "|" core) as F. rewrite S in F.
    inversion F as [|? ? Ft F1]; subst. inversion F1 as [|? ? Fa F2]; subst.
    inversion F2 as [|? ? Fs _]; subst.
    exists t, a, s. cbn [Title Artist Status Lyrics].
    repeat split; try assumption; try apply TrimSpace_Trimmed.
    symmetry. exact J.
  - intros (t & a & s & -> & Pt & Pa & Ps & Tt & Ta & Ts & Ly).
    split; [destruct t; discriminate|]. exists t, a, s. split.
    + change (t ++ "|" ++ a ++ "|" ++ s)
        with (t ++ String "|" (a ++ String "|" s)).
      rewrite Split_at_separator by exact Pt.
      rewrite Split_at_separator by exact Pa.
      now rewrite Split_no_separator by exact Ps.
    + rewrite (Trimmed_TrimSpace _ _ Tt), (Trimmed_TrimSpace _ _ Ta),
        (Trimmed_TrimSpace _ _ Ts).
      destruct d as [ds dt da dl]. cbn in *. now subst.
Qed.

Lemma space_is_space : In " " strings.spaces.
Proof. do 5 right. left. reflexivity. Qed.

Lemma newline_is_space : In (rep 1) strings.spaces.
Proof. right. left. reflexivity. Qed.

Lemma getSongInfo_by_trimmed_output_witness :
  (getSongInfo (Some (" Song A | Artist X|Playing " ++ rep 1))
   = Err "no song playing"
   <-> "Song A | Artist X|Playing" = "")
  /\ (getSongInfo (Some (" Song A | Artist X|Playing " ++ rep 1))
      = Err "unexpected metadata format"
      <-> "Song A | Artist X|Playing" <> ""
          /\ countByte "|" "Song A | Artist X|Playing" <> 2%nat)
  /\ (forall d,
        getSongInfo (Some (" Song A | Artist X|Playing " ++ rep 1)) = Ok d
        <-> exists t a s,
              "Song A | Artist X|Playing" = t ++ "|" ++ a ++ "|" ++ s
              /\ countByte "|" t = 0%nat
              /\ countByte "|" a = 0%nat
              /\ countByte "|" s = 0%nat
              /\ Trimmed t (Title d)
              /\ Trimmed a (Artist d)
              /\ Trimmed s (Status d)
              /\ Lyrics d = "").
Proof.
  apply (getSongInfo_by_trimmed_output
           (" Song A | Artist X|Playing " ++ rep 1)
           "Song A | Artist X|Playing").
  split; [|split; reflexivity].
  exists " ", (" " ++ rep 1). split; [reflexivity|]. split.
  - apply (Blank_cons _ " " ""); [exact space_is_space | constructor].
  - apply (Blank_cons _ " " (rep 1)); [exact space_is_space|].
    apply (Blank_cons _ (rep 1) ""); [exact newline_is_space | constructor].
Defined.

End ProbeByRelation.
